(** * MastermindAI: the scoring oracle, candidate fitness, the population
    engine and the guess selector of [src/js/application.js].

    JavaScript values are embedded as follows.
    - A symbol is a one-character string: [ascii].  A code is an array of
      symbols or a string indexed by position; both are read with
      [code[i]] only, so a code is a [list ascii] and [code[i]] is the
      list lookup [code !! i], where [None] stands for [undefined].
    - Counters are natural numbers; feedback stored in the history and
      the fitness are integers ([Z]).
    - [Math.random()] is a draw from an explicit stream of rationals.
      [getCrossoverPoint], whose result depends on it at the top of the
      range, rounds its product and its sum to binary64 ([binary64]); the
      indices [Math.floor(Math.random() * k)] are taken on the exact
      product, which is below [k] as the rounded one is. *)

From Stdlib Require Import QArith Qround Ascii.
From stdpp Require Import base decidable tactics relations sets list sorting
  numbers strings gmultiset pretty.

Open Scope nat_scope.
Open Scope list_scope.

(** ** Constants *)

Definition NUM_FIELDS : nat := 4.

Definition SYMBOLS : list ascii :=
  ["A"; "B"; "C"; "D"; "E"; "F"]%char.

Definition MUTATION_PROBABILITY : Q := 0.2%Q.
Definition PERMUTATION_PROBABILITY : Q := 0.1%Q.
Definition INVERSION_PROBABILITY : Q := 0.05%Q.

Definition MAXGEN : Z := 250.
Definition POPULATION_SIZE : Z := 150.
Definition SET_SIZE : nat := 110.
Definition FIT_A : Z := 1.
Definition FIT_B : Z := 2.

(** ** The scoring oracle: [testCode] *)

Module Scoring.

(** Body of the first loop: [if (combination[i] == solution[i]) { a++;
    marked[i] = 1 }].  The index [i] ranges below [NUM_FIELDS], the
    length of [marked], so the write is always in range. *)
Definition first_pass_step (combination solution : list ascii)
    (st : nat * list nat) (i : nat) : nat * list nat :=
  let '(a, marked) := st in
  if decide (combination !! i = solution !! i)
  then (S a, <[i:=1]> marked)
  else (a, marked).

(** The inner [for (j ...)] loop with its [break]: the first [j] of [js]
    with [i != j && 0 == marked[j] && combination[i] == solution[j]]. *)
Fixpoint scan (combination solution : list ascii) (i : nat)
    (marked : list nat) (js : list nat) : option nat :=
  match js with
  | [] => None
  | j :: js' =>
      if decide (i ≠ j ∧ marked !! j = Some 0
                 ∧ combination !! i = solution !! j)
      then Some j
      else scan combination solution i marked js'
  end.

(** Body of the second loop. *)
Definition second_pass_step (combination solution : list ascii)
    (st : nat * list nat) (i : nat) : nat * list nat :=
  let '(b, marked) := st in
  if decide (combination !! i ≠ solution !! i)
  then match scan combination solution i marked (seq 0 NUM_FIELDS) with
       | Some j => (S b, <[j:=1]> marked)
       | None => (b, marked)
       end
  else (b, marked).

(** [testCode(combination, solution)]: the pair [[a, b]]. *)
Definition testCode (combination solution : list ascii) : nat * nat :=
  let '(a, marked) :=
    foldl (first_pass_step combination solution) (0, [0; 0; 0; 0])
          (seq 0 NUM_FIELDS) in
  let '(b, _) :=
    foldl (second_pass_step combination solution) (0, marked)
          (seq 0 NUM_FIELDS) in
  (a, b).

End Scoring.

Export Scoring.

(** ** Strings and arrays *)

(** [s.split('')] and [a.join('')] for an array of one-character strings. *)
Definition code_of (s : string) : list ascii := String.list_ascii_of_string s.
Definition join (a : list ascii) : string := String.string_of_list_ascii a.

(** [a[z]] for a JavaScript number [z]: [undefined] below zero. *)
Definition lookupZ {A} (a : list A) (z : Z) : option A :=
  if (z <? 0)%Z then None else a !! Z.to_nat z.

(** [a.slice(0, e)] and [a.slice(b)]; a negative index counts from the
    end of the array and is clamped at zero. *)
Definition slice_to {A} (a : list A) (e : Z) : list A :=
  if (e <? 0)%Z then take (length a - Z.to_nat (- e)) a
  else take (Z.to_nat e) a.

Definition slice_from {A} (a : list A) (b : Z) : list A :=
  if (b <? 0)%Z then drop (length a - Z.to_nat (- b)) a
  else drop (Z.to_nat b) a.

(** ** The random source *)

(** The stream of the values that the next calls of [Math.random()]
    return; each call consumes the head of the stream. *)
Definition RNG : Type := nat → Q.

Definition Rand (A : Type) : Type := RNG → A * RNG.

#[global] Instance Rand_ret : MRet Rand := λ A a g, (a, g).
#[global] Instance Rand_bind : MBind Rand :=
  λ A B k m g, let '(a, g') := m g in k a g'.

Definition Math_random : Rand Q := λ g, (g 0, λ n, g (S n)).

(** A stream is well formed when every draw lies in [[0, 1)]. *)
Definition valid_rng (g : RNG) : Prop := ∀ n, (0 <= g n)%Q ∧ (g n < 1)%Q.

Definition shouldDo (probability : Q) : Rand bool :=
  u ← Math_random; mret (Qle_bool u probability).

(** JavaScript numbers are IEEE 754 binary64 values, and an arithmetic
    operation returns its exact result rounded to the nearest of them,
    ties to the even significand.  [binary64 q] is that rounding of the
    exact result [q]: [ilog2 a d] is the exponent of the leading bit of
    [a / d], the significand has 53 bits down to the exponent [-1074] of
    the subnormal numbers.  Magnitudes from [2^1024] on, which round to
    an infinity, do not arise: array lengths are below [2^32]. *)
Definition ilog2 (a d : Z) : Z :=
  let e0 := (Z.log2 a - Z.log2 d)%Z in
  if (0 <=? e0)%Z
  then (if (d * 2 ^ e0 <=? a)%Z then e0 else e0 - 1)%Z
  else (if (d <=? a * 2 ^ (- e0))%Z then e0 else e0 - 1)%Z.

(** The integer nearest to [n / d], the even one of the two when [n / d]
    lies halfway. *)
Definition round_half_even (n d : Z) : Z :=
  let k := (n / d)%Z in
  match (2 * (n mod d) ?= d)%Z with
  | Lt => k
  | Gt => (k + 1)%Z
  | Eq => if Z.even k then k else (k + 1)%Z
  end.

Definition binary64 (q : Q) : Q :=
  let n := Qnum q in
  let d := Z.pos (Qden q) in
  if (n =? 0)%Z then 0%Q
  else
    let a := Z.abs n in
    let p := Z.max (ilog2 a d - 52) (-1074) in
    let v :=
      if (0 <=? p)%Z
      then inject_Z (round_half_even a (d * 2 ^ p) * 2 ^ p)
      else Qmake (round_half_even (a * 2 ^ (- p)) d)
                 (Z.to_pos (2 ^ (- p))) in
    if (n <? 0)%Z then Qopp v else v.

(** [Math.floor(Math.random() * (length - 2) + 1)]: the product and the
    sum are rounded.  At a draw next to 1 the sum rounds up to
    [length - 1]. *)
Definition getCrossoverPoint (length : nat) : Rand Z :=
  u ← Math_random;
  mret (Qfloor
          (binary64
             (binary64 (u * (inject_Z (Z.of_nat length) - 2)) + 1))).

(** ** Underscore.js helpers

    The library Underscore.js is called by the source and is not under
    [src/].  Its deterministic helpers are written out here after what
    the specification and the library's documentation say of them; the
    random [_.sample(list, n)] is a parameter of the engine below. *)
Module Underscore.

(** Modelled from the spec: [_.without(array, value)], missing from
    [src/] (the set [S = EligibleSet \ {g}] of section 4.5): every
    element equal to [value] removed. *)
Definition without {A} `{EqDecision A} (array : list A) (value : A)
    : list A :=
  filter (λ x, x ≠ value) array.

(** Modelled from the spec: [_.range(n)], missing from [src/] (the
    positions of a code): [0 .. n - 1]. *)
Definition range (n : nat) : list nat := seq 0 n.

(** Modelled from the spec: [_.uniq(array)], missing from [src/]
    ("deduplicate the Population by Code"): the first occurrence of every
    value, in order. *)
Definition uniq_step {A} `{EqDecision A} (result : list A) (value : A)
    : list A :=
  if decide (value ∈ result) then result else result ++ [value].

Definition uniq {A} `{EqDecision A} (array : list A) : list A :=
  foldl uniq_step [] array.

(** Modelled from the spec: [_.difference(array, other)], missing from
    [src/] ("excluding all Codes currently present"): the values of
    [array] not in [other], in order. *)
Definition difference {A} `{EqDecision A} (array other : list A) : list A :=
  list_difference array other.

(** Modelled from the spec: [_.union(a, b)], missing from [src/]: the
    unique values of [a] followed by the new ones of [b]. *)
Definition union {A} `{EqDecision A} (a b : list A) : list A :=
  uniq (a ++ b).

(** Modelled from the spec: [_.random(max)], missing from [src/] (a
    uniform draw among [0 .. max]):
    [Math.floor(Math.random() * (max + 1))]. *)
Definition random (max : Z) : Rand Z :=
  u ← Math_random; mret (Qfloor (u * inject_Z (max + 1))).

(** Modelled from the spec: [_.sample(list)] with no count, missing from
    [src/] ("drawn uniformly from the remaining alphabet"):
    [list[_.random(list.length - 1)]]. *)
Definition sample_one {A} (l : list A) : Rand (option A) :=
  r ← random (Z.of_nat (length l) - 1); mret (lookupZ l r).

(** Modelled from the spec: the contract of [_.sample(list, n)], missing
    from [src/] ("sample fresh, previously-unused Codes").  A result [r]
    holds [n] elements taken at distinct positions of [list]; as the
    library documents, it holds all of them when the list has fewer than
    [n], and none when [n] is negative.  No error is raised. *)
Definition is_sample {A} (l : list A) (n : Z) (r : list A) : Prop :=
  r ⊆+ l ∧ length r = Z.to_nat (Z.min n (Z.of_nat (length l))).

(** One implementation of [_.sample(list, n)] within that contract: the
    sample drawn when the shuffle leaves the list in place.  It consumes
    no draw. *)
Definition sample_first (A : Type) (l : list A) (n : Z) : Rand (list A) :=
  mret (take (Z.to_nat n) l).

End Underscore.

(** ** Candidates: [Combination] *)

Record Combination := {
  code : list ascii;
  fitness : Z;
  eligible : bool
}.

(** An entry [{code: aiGuess, x: blackNum, y: whiteNum}] of
    [previousGuesses]. *)
Record Guess := {
  guess_code : list ascii;
  x : Z;
  y : Z
}.

(** The argument of the constructor: a string or an array. *)
Inductive CodeArg :=
| Str (s : string)
| Arr (a : list ascii).

(** [new Combination(code)] *)
Definition new_Combination (arg : CodeArg) : Combination :=
  {| code := match arg with Str s => code_of s | Arr a => a end;
     fitness := 0;
     eligible := false |}.

Definition getCodeString (this : Combination) : string := join (code this).

(** [this.code = c], the other fields kept. *)
Definition with_code (this : Combination) (c : list ascii) : Combination :=
  {| code := c; fitness := fitness this; eligible := eligible this |}.

Definition crossover (this other : Combination)
    : Rand (Combination * Combination) :=
  crossoverPoint ← getCrossoverPoint (length (code this));
  let firstChild :=
    slice_to (code this) crossoverPoint
    ++ slice_from (code other) crossoverPoint in
  let secondChild :=
    slice_to (code other) crossoverPoint
    ++ slice_from (code this) crossoverPoint in
  mret (new_Combination (Arr firstChild), new_Combination (Arr secondChild)).

(** [mutate]: the position is below [NUM_FIELDS], the length of every code
    of the program, so the write [this.code[position] = newValue] is in
    range ([<[ _ := _ ]>] leaves a shorter list unchanged, where
    JavaScript would grow the array).  [_.without(SYMBOLS, v)] keeps at
    least five symbols, so [newValue] is never [undefined]. *)
Definition mutate (this : Combination) : Rand Combination :=
  u ← Math_random;
  let position := Z.to_nat (Qfloor (u * inject_Z (Z.of_nat NUM_FIELDS))) in
  newValue ← Underscore.sample_one
               (match code this !! position with
                | Some v => Underscore.without SYMBOLS v
                | None => SYMBOLS
                end);
  mret (match newValue with
        | Some v => with_code this (<[position:=v]> (code this))
        | None => this
        end).

(** [inverse]: [this.code.reverse()]. *)
Definition inverse (this : Combination) : Combination :=
  with_code this (reverse (code this)).

(** The comparison [ [a, b].join('') ] of two responses in
    [chooseNextGuess]: the decimal digits of both counts, concatenated. *)
Definition response_key (r : nat * nat) : string :=
  pretty r.1 +:+ pretty r.2.

Definition calculateFitness_step (this : Combination)
    (acc : Z * Z * Z) (entry : nat * Guess) : Z * Z * Z :=
  let '(xDifference, yDifference, slickValue) := acc in
  let '(i, g) := entry in
  let testResponse := testCode (code this) (guess_code g) in
  (xDifference + Z.abs (Z.of_nat testResponse.1 - x g),
   yDifference + Z.abs (Z.of_nat testResponse.2 - y g),
   slickValue + Z.of_nat i)%Z.

(** The three totals of the loop of [calculateFitness]. *)
Definition differences (this : Combination) (prevGuesses : list Guess)
    : Z * Z * Z :=
  foldl (calculateFitness_step this) (0, 0, 0)%Z
        (zip (seq 0 (length prevGuesses)) prevGuesses).

Definition calculateFitness (this : Combination) (prevGuesses : list Guess)
    : Combination :=
  let '(xDifference, yDifference, slickValue) :=
    differences this prevGuesses in
  {| code := code this;
     eligible := if ((xDifference =? 0) && (yDifference =? 0))%Z
                 then true else eligible this;
     fitness := (FIT_A * xDifference + yDifference
                 + FIT_B * Z.of_nat NUM_FIELDS * slickValue)%Z |}.

(** ** The code space *)

Fixpoint variations (symbols : list ascii) (depth : nat)
    (variation : list ascii) (results : list string) : list string :=
  match depth with
  | O => results ++ [join variation]
  | S depth' =>
      foldl (λ results sym,
               variations symbols depth' (variation ++ [sym]) results)
            results symbols
  end.

Definition allCodes : list string := variations SYMBOLS NUM_FIELDS [] [].

(** ** The session: [Mastermind] *)

(** The game object; [solution] is filled by [newGame] with [NUM_FIELDS]
    symbols drawn from [SYMBOLS]. *)
Record Mastermind := { solution : list ascii }.

Definition testCombination (this : Mastermind) (combination : list ascii)
    : nat * nat :=
  testCode combination (solution this).





(** ** The population engine *)

Record Population := {
  members : list Combination;
  size : Z
}.

(** What one call of [generation] leaves behind. *)
Inductive Outcome :=
| Halted
    (* [callback()] was invoked and the call returned *)
| Scheduled (this : Population) (eiSet : list string) (nextGen : Z)
    (* [setTimeout] was armed with [generation(prevGuesses, eiSet, nextGen,
       callback)] on the updated population and eligible set *)
| Threw.
    (* a [TypeError]: [this.members[lastIndex]] or its neighbour is
       [undefined] *)

(** [this.members.sort(...)]: ascending fitness; the sort is stable. *)
Fixpoint insert_by_fitness (m : Combination) (sorted : list Combination)
    : list Combination :=
  match sorted with
  | [] => [m]
  | m' :: rest =>
      if (fitness m <=? fitness m')%Z then m :: sorted
      else m' :: insert_by_fitness m rest
  end.

Definition sort (ms : list Combination) : list Combination :=
  foldr insert_by_fitness [] ms.

(** The test at the head of [generation]. *)
Definition halts (prevGuesses : list Guess) (eiSet : list string)
    (maxGen : Z) : bool :=
  if (maxGen <=? 0)%Z || (length eiSet =? SET_SIZE) then
    if negb ((1 <? length prevGuesses) && (length eiSet <? 1))
    then true else false
  else false.

(** Body of the first loop of [generation]: the member is evaluated in
    place and its code string pushed on [eiSet] when it is eligible and
    not yet there. *)
Definition evaluate_step (prevGuesses : list Guess)
    (st : list Combination * list string) (m : Combination)
    : list Combination * list string :=
  let '(seen, eiSet) := st in
  let m' := calculateFitness m prevGuesses in
  let eiSet' :=
    if eligible m' then
      let codeString := getCodeString m' in
      if decide (codeString ∈ eiSet) then eiSet else eiSet ++ [codeString]
    else eiSet in
  (seen ++ [m'], eiSet').

Definition evaluate (prevGuesses : list Guess) (ms : list Combination)
    (eiSet : list string) : list Combination * list string :=
  foldl (evaluate_step prevGuesses) ([], eiSet) ms.

(** [members.splice(0, 2, c0, c1)] *)
Definition splice_0_2 (ms : list Combination) (c0 c1 : Combination)
    : list Combination :=
  c0 :: c1 :: drop 2 ms.

(** The codes that [_.difference(allCodes, uniqueCodes)] leaves, and the
    number of codes that the refill asks [_.sample] for. *)
Definition unused_codes (ms : list Combination) : list string :=
  Underscore.difference allCodes
    (Underscore.uniq (getCodeString <$> ms)).

Definition requested (this_size : Z) (ms : list Combination) : Z :=
  (this_size
   - Z.of_nat (length (Underscore.uniq (getCodeString <$> ms))))%Z.

Section Engine.

(** [_.sample(list, n)] of Underscore.js, taken as a parameter: the
    library is not under [src/], and its versions draw the sample in
    different ways. *)
Variable sample : ∀ A : Type, list A → Z → Rand (list A).

(** [permutate]: the two positions come from [_.range(NUM_FIELDS)], below
    the length of every code of the program.  A sample of a
    four-element list always has two elements. *)
Definition permutate (this : Combination) : Rand Combination :=
  let positions := Underscore.range NUM_FIELDS in
  toPermute ← sample nat positions 2;
  mret (match toPermute with
        | p0 :: p1 :: _ =>
            match code this !! p0, code this !! p1 with
            | Some v0, Some v1 =>
                with_code this (<[p1:=v0]> (<[p0:=v1]> (code this)))
            | _, _ => this
            end
        | _ => this
        end).

(** The three trials of the loop over [nextGeneration], one child. *)
Definition mutation_trial (child : Combination) : Rand Combination :=
  b ← shouldDo MUTATION_PROBABILITY;
  if b : bool then mutate child else mret child.

Definition permutation_trial (child : Combination) : Rand Combination :=
  b ← shouldDo PERMUTATION_PROBABILITY;
  if b : bool then permutate child else mret child.

Definition inversion_trial (child : Combination) : Rand Combination :=
  b ← shouldDo INVERSION_PROBABILITY;
  mret (if b : bool then inverse child else child).

Definition vary (child : Combination) : Rand Combination :=
  child ← mutation_trial child;
  child ← permutation_trial child;
  inversion_trial child.

(** [Population.prototype.init] *)
Definition init (size : Z) : Rand Population :=
  randomSample ← sample string allCodes size;
  mret {| members := (λ s, new_Combination (Str s)) <$> randomSample;
          size := size |}.

(** The refill at the end of [generation]. *)
Definition refill (this_size : Z) (ms : list Combination)
    : Rand (list Combination) :=
  let uniqueCodes := Underscore.uniq (getCodeString <$> ms) in
  newMembers ← sample string (Underscore.difference allCodes uniqueCodes)
                 (this_size - Z.of_nat (length uniqueCodes))%Z;
  let uniqueCodes := Underscore.union uniqueCodes newMembers in
  mret ((λ e, new_Combination (Str e)) <$> uniqueCodes).

(** [generation] from [this.sort()] to the [splice]: the two members of
    highest fitness are crossed, the children varied, and the first two
    slots replaced.  [None] stands for the [TypeError] raised when
    [this.members[lastIndex]] or [this.members[lastIndex - 1]] is
    [undefined]. *)
Definition breed (ms : list Combination)
    : Rand (option (list Combination)) :=
  let ms := sort ms in
  let lastIndex := (Z.of_nat (length ms) - 1)%Z in
  match lookupZ ms lastIndex, lookupZ ms (lastIndex - 1) with
  | Some last, Some other =>
      nextGeneration ← crossover last other;
      c0 ← vary nextGeneration.1;
      c1 ← vary nextGeneration.2;
      mret (Some (splice_0_2 ms c0 c1))
  | _, _ => mret None
  end.

(** [Population.prototype.generation], one call. *)
Definition generation (this : Population) (prevGuesses : list Guess)
    (eiSet : list string) (maxGen : Z) : Rand Outcome :=
  if halts prevGuesses eiSet maxGen then mret Halted
  else
    let '(ms, eiSet) := evaluate prevGuesses (members this) eiSet in
    bred ← breed ms;
    match bred with
    | Some ms =>
        ms ← refill (size this) ms;
        mret (Scheduled {| members := ms; size := size this |}
                        eiSet (maxGen - 1))
    | None => mret Threw
    end.

End Engine.

(** ** The guess selector *)

(** The three nested loops of [chooseNextGuess] for one candidate
    [eligible[i]]. *)
Definition split_sum (eligible : list string) (candidate : string) : nat :=
  let searchSpace := Underscore.without eligible candidate in
  foldl (λ sum reference,
           let testResponse := testCode (code_of candidate) (code_of reference) in
           let remainingCodes := Underscore.without searchSpace reference in
           foldl (λ sum other,
                    let subResponse :=
                      testCode (code_of other) (code_of reference) in
                    if decide (response_key testResponse
                               ≠ response_key subResponse)
                    then S sum else sum)
                 sum remainingCodes)
        0 searchSpace.

Definition chooseNextGuess_step (eligible : list string)
    (st : nat * option string) (candidate : string) : nat * option string :=
  let '(max, nextGuess) := st in
  let sum := split_sum eligible candidate in
  if max <? sum then (sum, Some candidate) else (max, nextGuess).

(** [None] stands for the [TypeError] of [undefined.split('')] on an empty
    array. *)
Definition chooseNextGuess (eligible : list string) : option (list ascii) :=
  let '(_, nextGuess) :=
    foldl (chooseNextGuess_step eligible) (0, eligible !! 0) eligible in
  code_of <$> nextGuess.

(** ** The round: [playNextGuess] *)

Inductive Turn :=
| Win (previousGuesses : list Guess)
| Search (previousGuesses : list Guess) (eligibleSet : list string).

(** [playNextGuess] up to the call of [population.generation]: the guess
    is recorded, the win check is made, and the eligible set is emptied. *)
Definition playNextGuess (previousGuesses : list Guess)
    (aiGuess : list ascii) (blackNum whiteNum : Z) : Turn :=
  let previousGuesses :=
    previousGuesses
    ++ [{| guess_code := aiGuess; x := blackNum; y := whiteNum |}] in
  if (blackNum =? Z.of_nat NUM_FIELDS)%Z then Win previousGuesses
  else Search previousGuesses [].

(** ** The page: [getNumberFromClass] *)



(** ** The chain of calls of a round *)

(** Where the chain of calls armed through [setTimeout] stands after at
    most [fuel] calls. *)
Inductive RunResult :=
| Done (this : Population) (eligibleSet : list string)
    (* [callback()] was invoked, with the population and the eligible set
       in this state *)
| Crashed
    (* a call raised its [TypeError] *)
| Pending.
    (* the call after the last one followed is still armed *)

Section Round.

Variable sample : ∀ A : Type, list A → Z → Rand (list A).

Fixpoint run (fuel : nat) (this : Population) (prevGuesses : list Guess)
    (eiSet : list string) (maxGen : Z) (g : RNG) : RunResult :=
  match fuel with
  | O => Pending
  | S fuel' =>
      match generation sample this prevGuesses eiSet maxGen g with
      | (Halted, _) => Done this eiSet
      | (Scheduled this' eiSet' nextGen, g') =>
          run fuel' this' prevGuesses eiSet' nextGen g'
      | (Threw, _) => Crashed
      end
  end.

End Round.

(** The callback that [playNextGuess] hands to [generation]: the next
    guess when the eligible set is not empty, ["Lose!"] otherwise.
    [CallbackThrew] stands for the [TypeError] of [chooseNextGuess]. *)
Inductive Verdict :=
| NextGuess (aiGuess : list ascii)
| Lose
| CallbackThrew.

Definition callback (eligibleSet : list string) : Verdict :=
  if 0 <? length eligibleSet then
    match chooseNextGuess eligibleSet with
    | Some aiGuess => NextGuess aiGuess
    | None => CallbackThrew
    end
  else Lose.

(** ** Notions used in the statements *)

(** Positions of [ix] where two codes agree, and the symbols of [c] at the
    positions of [ix] where they differ. *)
Definition exact_at (c s : list ascii) (ix : list nat) : list nat :=
  filter (λ i, c !! i = s !! i) ix.

Definition nonexact (c s : list ascii) (ix : list nat)
    : gmultiset (option ascii) :=
  list_to_set_disj ((λ i, c !! i) <$> filter (λ i, c !! i ≠ s !! i) ix).

(** Symbols of the solution that the array [marked] leaves available. *)
Definition pool (s : list ascii) (marked : list nat) (js : list nat)
    : gmultiset (option ascii) :=
  list_to_set_disj ((λ j, s !! j) <$> filter (λ j, marked !! j = Some 0) js).

(** The array [marked] after the first loop of [testCode] over [ix]. *)
Definition mark_exact (c s : list ascii) (marked : list nat) (ix : list nat)
    : list nat :=
  foldl (λ m i, if decide (c !! i = s !! i) then <[i:=1]> m else m) marked ix.

(** A history entry is consistent with a secret when it stores the feedback
    [testCode guess secret] of its guess. *)
Definition consistent_with (secret : list ascii) (r : Guess) : Prop :=
  x r = Z.of_nat (testCode (guess_code r) secret).1
  ∧ y r = Z.of_nat (testCode (guess_code r) secret).2.

(** The split sum in the words of the specification: over the references
    [r] among the other members, the number of further members [k] whose
    score against [r] differs from the score of [g] against [r]. *)
Definition split_count (E : list string) (g : string) : nat :=
  let others := filter (λ m, m ≠ g) E in
  sum_list
    ((λ r, length
             (filter (λ k, testCode (code_of k) (code_of r)
                           ≠ testCode (code_of g) (code_of r))
                     (filter (λ k, k ≠ r) others)))
     <$> others).

(** The contract of [_.sample(list, n)], for a whole implementation. *)
Definition sample_contract
    (sample : ∀ A : Type, list A → Z → Rand (list A)) : Prop :=
  ∀ (A : Type) (l : list A) (n : Z) (g : RNG),
    Underscore.is_sample l n (sample A l n g).1.

(** The words of [depth] symbols, in the order of the enumeration. *)
Fixpoint words (symbols : list ascii) (depth : nat) : list (list ascii) :=
  match depth with
  | O => [[]]
  | S depth' => sym ← symbols; (cons sym) <$> words symbols depth'
  end.

(** A code of [NUM_FIELDS] symbols of the alphabet, and a member whose
    code is one. *)
Definition is_code (c : list ascii) : Prop :=
  length c = NUM_FIELDS ∧ Forall (λ sym, sym ∈ SYMBOLS) c.

Definition wf_member (m : Combination) : Prop := is_code (code m).

(** One call of [generation] in the chain of calls of a round: its
    receiver, its arguments, and the random source when it runs. *)
Record Call := {
  call_this : Population;
  call_eiSet : list string;
  call_maxGen : Z;
  call_rng : RNG
}.

(** The call [c] arms the call [c'] through [setTimeout]. *)
Definition arms (sample : ∀ A : Type, list A → Z → Rand (list A))
    (prevGuesses : list Guess) (c c' : Call) : Prop :=
  generation sample (call_this c) prevGuesses (call_eiSet c)
    (call_maxGen c) (call_rng c)
  = (Scheduled (call_this c') (call_eiSet c') (call_maxGen c'),
     call_rng c').

(** The population invariant: the configured size fits the code space,
    and the members are [size] distinct codes of the code space. *)
Definition population_ok (this : Population) : Prop :=
  (2 ≤ size this ≤ Z.of_nat (length allCodes))%Z
  ∧ Z.of_nat (length (members this)) = size this
  ∧ NoDup (code <$> members this)
  ∧ Forall wf_member (members this).

(** The symbols of a code, with their multiplicities; the symbols read at
    the positions [ix], and those read where two codes agree. *)
Definition symbols_of (c : list ascii) : gmultiset ascii :=
  list_to_set_disj c.

Definition symbols_at (c : list ascii) (ix : list nat)
    : gmultiset (option ascii) :=
  list_to_set_disj ((λ i, c !! i) <$> ix).

Definition exact_symbols (c s : list ascii) (ix : list nat)
    : gmultiset (option ascii) :=
  list_to_set_disj ((λ i, c !! i) <$> exact_at c s ix).

(** A candidate as [new Combination] leaves it. *)
Definition fresh (m : Combination) : Prop :=
  fitness m = 0%Z ∧ eligible m = false.

(** A population on which a round can start: the invariant, on fresh
    members. *)
Definition round_ready (this : Population) : Prop :=
  population_ok this ∧ Forall fresh (members this).

(** A code string that may stand in the eligible set of a round: a code
    of the code space that every entry of the history is consistent
    with. *)
Definition sound_entry (prevGuesses : list Guess) (e : string) : Prop :=
  is_code (code_of e) ∧ Forall (consistent_with (code_of e)) prevGuesses.

(** The order of [this.members.sort(...)]. *)
Definition fitness_le (a b : Combination) : Prop :=
  (fitness a ≤ fitness b)%Z.

(** ** Concrete inputs *)

(** The constant stream of draws [1/2]: no operator fires and the
    crossover point is [2]. *)
Definition rng_half : RNG := λ _, 0.5%Q.


Definition first_population : Population :=
  (init Underscore.sample_first POPULATION_SIZE rng_half).1.

Definition first_history : list Guess :=
  [ {| guess_code := code_of "AABB"; x := 1; y := 1 |} ].

(** The population that [new Population(1297)] builds when the sample
    keeps the order of the code space: all 1296 codes. *)
Definition oversized_population : Population :=
  (init Underscore.sample_first 1297 rng_half).1.

(** A population of three codes. *)
Definition small_population : Population :=
  {| members :=
       (λ s, new_Combination (Str s)) <$> ["CDEF"; "AABB"; "ABCD"]%string;
     size := 3 |}.

(** A population of 150 codes without [A] or [B], after a first guess
    [AABB] that scored nothing: every member is eligible. *)
Definition overshoot_population : Population :=
  {| members :=
       (λ s, new_Combination (Str s))
       <$> take 150 (variations ["C"; "D"; "E"; "F"]%char NUM_FIELDS [] []);
     size := POPULATION_SIZE |}.

Definition overshoot_history : list Guess :=
  [ {| guess_code := code_of "AABB"; x := 0; y := 0 |} ].

(* ================================================================== *)
(** * Properties *)
(* ================================================================== *)

Example testCode_spec_example :
  testCode (code_of "ABCD") (code_of "AEFB") = (1, 1).
Proof. reflexivity. Qed.

Example testCode_AABB_ABCD :
  testCode (code_of "AABB") (code_of "ABCD") = (1, 1).
Proof. reflexivity. Qed.

(** ** What [testCode] computes *)

Section ListFacts.
Context {A : Type}.

Lemma filter_iff_on (P1 P2 : A → Prop)
    `{!∀ x, Decision (P1 x), !∀ x, Decision (P2 x)} (l : list A) :
  (∀ x, x ∈ l → P1 x ↔ P2 x) → filter P1 l = filter P2 l.
Proof.
  induction l as [|a l IH]; intros HP; [done|].
  rewrite !filter_cons.
  assert (P1 a ↔ P2 a) as Ha by (apply HP; by left).
  rewrite IH by (intros; apply HP; by right).
  destruct (decide (P1 a)).
  - by rewrite decide_True by tauto.
  - by rewrite decide_False by tauto.
Qed.

Lemma length_filter_all (P : A → Prop) `{!∀ x, Decision (P x)} (l : list A) :
  length (filter P l) = length l ↔ Forall P l.
Proof.
  induction l as [|a l IH]; [by split|].
  rewrite filter_cons, Forall_cons.
  pose proof (length_filter P l).
  destruct (decide (P a)) as [Ha|Ha]; simpl.
  - rewrite <-IH. split; [intros ?; split; [done|lia]|intros [_ ->]; lia].
  - split; [lia|by intros [? _]].
Qed.
End ListFacts.

Section MultisetFacts.
Context `{Countable A}.
Implicit Types X Y : gmultiset A.

Lemma inter_take_common (x : A) X Y :
  ({[+ x +]} ⊎ X) ∩ ({[+ x +]} ⊎ Y) = {[+ x +]} ⊎ (X ∩ Y).
Proof.
  apply gmultiset_eq; intros y.
  rewrite multiplicity_intersection, !multiplicity_disj_union,
    multiplicity_intersection. lia.
Qed.

Lemma inter_skip_absent (x : A) X Y :
  x ∉ Y → ({[+ x +]} ⊎ X) ∩ Y = X ∩ Y.
Proof.
  intros Hx%not_elem_of_multiplicity.
  apply gmultiset_eq; intros y.
  rewrite !multiplicity_intersection, multiplicity_disj_union.
  destruct (decide (x = y)) as [->|Hne].
  - rewrite multiplicity_singleton. lia.
  - rewrite multiplicity_singleton_ne by done. lia.
Qed.

Lemma size_inter_le_l X Y : base.size (X ∩ Y) ≤ base.size X.
Proof.
  apply gmultiset_subseteq_size. intros y.
  rewrite multiplicity_intersection. lia.
Qed.
End MultisetFacts.

Section ScoringFacts.
Implicit Types c s : list ascii.
Implicit Types marked : list nat.
Implicit Types ix js : list nat.

Lemma mark_exact_cons c s marked i ix :
  mark_exact c s marked (i :: ix)
  = mark_exact c s
      (if decide (c !! i = s !! i) then <[i:=1]> marked else marked) ix.
Proof. reflexivity. Qed.

Lemma first_pass_foldl c s ix a marked :
  foldl (first_pass_step c s) (a, marked) ix
  = (a + length (exact_at c s ix), mark_exact c s marked ix).
Proof.
  revert a marked. induction ix as [|i ix IH]; intros a marked; simpl.
  - by rewrite Nat.add_0_r.
  - unfold exact_at. rewrite filter_cons. case_decide; simpl.
    + rewrite IH. f_equal. unfold exact_at. lia.
    + by rewrite IH.
Qed.

Lemma length_mark_exact c s ix marked :
  length (mark_exact c s marked ix) = length marked.
Proof.
  revert marked. induction ix as [|i ix IH]; intros marked; [done|].
  rewrite mark_exact_cons, IH. case_decide; by rewrite ?length_insert.
Qed.

Lemma lookup_mark_exact c s ix marked j :
  mark_exact c s marked ix !! j
  = if decide (j ∈ ix ∧ c !! j = s !! j ∧ j < length marked)
    then Some 1 else marked !! j.
Proof.
  revert marked. induction ix as [|i ix IH]; intros marked.
  - cbn [mark_exact foldl]. case_decide as H; [|done]. destruct H as [H _].
    by apply elem_of_nil in H.
  - rewrite mark_exact_cons, IH.
    destruct (decide (c !! i = s !! i)) as [Hi|Hi].
    + rewrite length_insert.
      destruct (decide (j ∈ ix ∧ c !! j = s !! j ∧ j < length marked))
        as [(?&?&?)|Hn].
      { rewrite decide_True; [done|]. split_and!; [by right|done..]. }
      destruct (decide (i = j)) as [->|Hij].
      * destruct (decide (j < length marked)) as [Hlt|Hge].
        -- rewrite list_lookup_insert_eq by done.
           rewrite decide_True; [done|]. split_and!; [by left|done..].
        -- rewrite list_insert_ge by lia.
           rewrite decide_False; [done|]. intros (?&?&?); lia.
      * rewrite list_lookup_insert_ne by done.
        rewrite decide_False; [done|].
        intros (Hin&?&?). apply elem_of_cons in Hin as [->|Hin]; [done|].
        apply Hn; done.
    + destruct (decide (j ∈ ix ∧ c !! j = s !! j ∧ j < length marked))
        as [(?&?&?)|Hn].
      { rewrite decide_True; [done|]. split_and!; [by right|done..]. }
      rewrite decide_False; [done|].
      intros (Hin&?&?). apply elem_of_cons in Hin as [->|Hin]; [done|].
      apply Hn; done.
Qed.

Lemma scan_Some c s i marked js j :
  scan c s i marked js = Some j →
  j ∈ js ∧ i ≠ j ∧ marked !! j = Some 0 ∧ c !! i = s !! j.
Proof.
  induction js as [|j' js IH]; simpl; [done|].
  case_decide as H.
  - intros [= ->]. split; [by left|done].
  - intros Hs. destruct (IH Hs) as (?&?). split; [by right|done].
Qed.

Lemma scan_None c s i marked js :
  scan c s i marked js = None →
  ∀ j, j ∈ js → ¬ (i ≠ j ∧ marked !! j = Some 0 ∧ c !! i = s !! j).
Proof.
  induction js as [|j' js IH]; simpl; intros Hs j Hj.
  - by apply elem_of_nil in Hj.
  - case_decide as H; [done|].
    apply elem_of_cons in Hj as [->|Hj]; [done|by apply IH].
Qed.

Lemma pool_cons s marked j js :
  pool s marked (j :: js)
  = (if decide (marked !! j = Some 0) then {[+ s !! j +]} else ∅)
    ⊎ pool s marked js.
Proof.
  unfold pool. rewrite filter_cons. case_decide.
  - by rewrite fmap_cons, list_to_set_disj_cons.
  - by rewrite (left_id_L ∅ (⊎)).
Qed.

Lemma pool_insert_notin s marked js j v :
  j ∉ js → pool s (<[j:=v]> marked) js = pool s marked js.
Proof.
  induction js as [|j' js IH]; intros Hj; [done|].
  apply not_elem_of_cons in Hj as [Hne Hj].
  rewrite !pool_cons, IH by done.
  by rewrite list_lookup_insert_ne by done.
Qed.

(** Marking an available position takes its symbol out of the pool. *)
Lemma pool_mark s marked js j :
  NoDup js → j ∈ js → marked !! j = Some 0 →
  pool s marked js = {[+ s !! j +]} ⊎ pool s (<[j:=1]> marked) js.
Proof.
  intros Hnd Hj Hm.
  induction Hnd as [|j' js Hj' Hnd IH].
  - by apply elem_of_nil in Hj.
  - rewrite !pool_cons.
    destruct (decide (j' = j)) as [->|Hne].
    + rewrite decide_True by done.
      rewrite list_lookup_insert_eq by (by eapply lookup_lt_Some).
      rewrite decide_False by done.
      rewrite pool_insert_notin by done. by rewrite (left_id_L ∅ (⊎)).
    + apply elem_of_cons in Hj as [->|Hj]; [done|].
      rewrite list_lookup_insert_ne by done.
      rewrite IH by done.
      by rewrite !(assoc_L (⊎)), (comm_L (⊎) _ {[+ s !! j +]}).
Qed.

Lemma elem_of_pool s marked js x :
  x ∈ pool s marked js ↔ ∃ j, j ∈ js ∧ marked !! j = Some 0 ∧ s !! j = x.
Proof.
  unfold pool. rewrite elem_of_list_to_set_disj, list_elem_of_fmap.
  split.
  - intros (j & -> & Hj). apply list_elem_of_filter in Hj as [? ?]. eauto.
  - intros (j & ? & ? & <-). exists j. split; [done|].
    by apply list_elem_of_filter.
Qed.

Lemma nonexact_cons c s i ix :
  nonexact c s (i :: ix)
  = (if decide (c !! i ≠ s !! i) then {[+ c !! i +]} else ∅)
    ⊎ nonexact c s ix.
Proof.
  unfold nonexact. rewrite filter_cons. case_decide.
  - by rewrite fmap_cons, list_to_set_disj_cons.
  - by rewrite (left_id_L ∅ (⊎)).
Qed.

(** The second loop counts the symbols common to the non-exact part of
    the combination and the pool, with multiplicity. *)
Lemma second_pass_foldl c s ix b marked :
  (foldl (second_pass_step c s) (b, marked) ix).1
  = b + base.size (nonexact c s ix ∩ pool s marked (seq 0 NUM_FIELDS)).
Proof.
  revert b marked. induction ix as [|i ix IH]; intros b marked.
  - simpl. unfold nonexact. simpl.
    rewrite (left_absorb_L ∅ (∩)), gmultiset_size_empty. lia.
  - cbn [foldl]. unfold second_pass_step at 2.
    rewrite nonexact_cons.
    destruct (decide (c !! i ≠ s !! i)) as [Hne|Heq].
    + destruct (scan c s i marked (seq 0 NUM_FIELDS)) as [j|] eqn:Hscan.
      * apply scan_Some in Hscan as (Hj & Hij & Hm & Hc).
        rewrite IH.
        rewrite (pool_mark s marked _ j) by (done || apply NoDup_seq).
        rewrite <-Hc.
        rewrite inter_take_common.
        rewrite gmultiset_size_disj_union, gmultiset_size_singleton. lia.
      * rewrite IH. f_equal. f_equal.
        assert (c !! i ∉ pool s marked (seq 0 NUM_FIELDS)) as Hnot.
        { rewrite elem_of_pool. intros (j & Hj & Hm & Hs).
          destruct (decide (i = j)) as [->|Hij]; [by rewrite Hs in Hne|].
          by eapply scan_None. }
        symmetry. by apply inter_skip_absent.
    + rewrite IH. by rewrite (left_id_L ∅ (⊎)).
Qed.

(** After the first loop a position is available exactly when the two
    codes differ there. *)
Lemma pool_after_first_pass c s :
  pool s (mark_exact c s [0; 0; 0; 0] (seq 0 NUM_FIELDS)) (seq 0 NUM_FIELDS)
  = nonexact s c (seq 0 NUM_FIELDS).
Proof.
  unfold pool, nonexact. f_equal. f_equal.
  apply filter_iff_on. intros j Hj.
  rewrite lookup_mark_exact.
  apply elem_of_seq in Hj as [_ Hj]. simpl in Hj.
  destruct (decide (c !! j = s !! j)) as [Heq|Hneq].
  - rewrite decide_True; last first.
    { split_and!; [apply elem_of_seq; simpl; lia|done|simpl; done]. }
    split; [done|congruence].
  - rewrite decide_False by (by intros (?&?&?)).
    split; [congruence|intros _].
    unfold NUM_FIELDS in Hj.
    by do 4 (destruct j as [|j]; [done|]); lia.
Qed.

Lemma exact_at_sym c s ix : exact_at c s ix = exact_at s c ix.
Proof. unfold exact_at. apply list_filter_iff. intros i. split; congruence. Qed.

Lemma length_exact_nonexact c s ix :
  length (exact_at c s ix) + base.size (nonexact c s ix) = length ix.
Proof.
  induction ix as [|i ix IH]; [done|].
  rewrite nonexact_cons. unfold exact_at in *. rewrite filter_cons.
  destruct (decide (c !! i = s !! i)).
  - rewrite decide_False by tauto.
    rewrite (left_id_L ∅ (⊎)). simpl. lia.
  - rewrite decide_True by done.
    rewrite gmultiset_size_disj_union, gmultiset_size_singleton. simpl. lia.
Qed.

(** [testCode] in closed form: the number of agreeing positions, and the
    size of the multiset intersection of the two non-exact parts. *)
Lemma testCode_closed_form c s :
  testCode c s
  = (length (exact_at c s (seq 0 NUM_FIELDS)),
     base.size (nonexact c s (seq 0 NUM_FIELDS)
           ∩ nonexact s c (seq 0 NUM_FIELDS))).
Proof.
  unfold testCode. rewrite first_pass_foldl.
  pose proof (second_pass_foldl c s (seq 0 NUM_FIELDS) 0
                (mark_exact c s [0; 0; 0; 0] (seq 0 NUM_FIELDS))) as H2.
  destruct (foldl (second_pass_step c s) _ _) as [b m'].
  rewrite pool_after_first_pass in H2. cbn [fst] in H2. by rewrite H2.
Qed.

(** Two consequences of the closed form, in the shape the later
    sections use them. *)
Lemma testCode_swap c s : testCode c s = testCode s c.
Proof.
  rewrite !testCode_closed_form.
  by rewrite exact_at_sym, (comm_L (∩)).
Qed.

Lemma testCode_counts_le c s :
  (testCode c s).1 ≤ NUM_FIELDS ∧ (testCode c s).2 ≤ NUM_FIELDS.
Proof.
  rewrite testCode_closed_form. cbn [fst snd].
  pose proof (length_exact_nonexact c s (seq 0 NUM_FIELDS)) as Hsum.
  rewrite length_seq in Hsum.
  pose proof (size_inter_le_l (nonexact c s (seq 0 NUM_FIELDS))
                (nonexact s c (seq 0 NUM_FIELDS))).
  lia.
Qed.

End ScoringFacts.

(** ** The scoring oracle: claims *)

(** C1. The scoring oracle is symmetric: [testCode A B] and [testCode B A]
    are the same (exact, partial) pair, for all codes, repeated symbols
    included.  (The statement needs no assumption on the two arrays.) *)
Theorem testCode_symmetric (A B : list ascii) : testCode A B = testCode B A.
Proof.
  rewrite !testCode_closed_form.
  by rewrite exact_at_sym, (comm_L (∩)).
Qed.

(** C8. The two counts of the feedback are natural numbers whose sum is at
    most the code length [NUM_FIELDS]. *)
Theorem testCode_sum_le (a b : list ascii) :
  (testCode a b).1 + (testCode a b).2 ≤ NUM_FIELDS.
Proof.
  rewrite testCode_closed_form. cbn [fst snd].
  pose proof (length_exact_nonexact a b (seq 0 NUM_FIELDS)) as Hsum.
  rewrite length_seq in Hsum.
  pose proof (size_inter_le_l (nonexact a b (seq 0 NUM_FIELDS))
                (nonexact b a (seq 0 NUM_FIELDS))).
  lia.
Qed.

Lemma exact_all_iff (g r : list ascii) :
  (testCode g r).1 = NUM_FIELDS ↔ ∀ i, i < NUM_FIELDS → g !! i = r !! i.
Proof.
  rewrite testCode_closed_form. cbn [fst]. unfold exact_at.
  pose proof (length_filter_all (λ i, g !! i = r !! i) (seq 0 NUM_FIELDS))
    as Hall.
  rewrite length_seq in Hall. rewrite Hall, Forall_forall. clear Hall.
  split; intros Hall i Hi; apply Hall.
  - apply elem_of_seq. lia.
  - apply elem_of_seq in Hi. lia.
Qed.

Lemma lookup_below_eq (g r : list ascii) :
  length g = NUM_FIELDS → length r = NUM_FIELDS →
  (∀ i, i < NUM_FIELDS → g !! i = r !! i) ↔ g = r.
Proof.
  intros Hg Hr. split; [|by intros ->].
  intros Hall. apply list_eq. intros i.
  destruct (decide (i < NUM_FIELDS)) as [Hi|Hi]; [by apply Hall|].
  rewrite !lookup_ge_None_2 by lia. done.
Qed.

(** C10. For codes of [NUM_FIELDS] symbols the exact count of [testCode]
    is [NUM_FIELDS] exactly when the two codes are equal position by
    position; so the win check of [playNextGuess], fed with the exact
    count of the guess against the solution, fires exactly when the guess
    is the solution. *)
Theorem exact_count_full_iff_equal (g r : list ascii) :
  length g = NUM_FIELDS → length r = NUM_FIELDS →
  ((testCode g r).1 = NUM_FIELDS ↔ g = r)
  ∧ ∀ (game : Mastermind) (previousGuesses : list Guess),
      solution game = r →
      let response := testCombination game g in
      (∃ h, playNextGuess previousGuesses g
              (Z.of_nat response.1) (Z.of_nat response.2) = Win h)
      ↔ g = r.
Proof.
  intros Hg Hr.
  assert ((testCode g r).1 = NUM_FIELDS ↔ g = r) as Hiff.
  { rewrite exact_all_iff. by apply lookup_below_eq. }
  split; [done|].
  intros game previousGuesses Hsol response. subst response.
  unfold testCombination, playNextGuess. rewrite Hsol, <-Hiff.
  destruct (Z.eqb_spec (Z.of_nat (testCode g r).1) (Z.of_nat NUM_FIELDS))
    as [Heq|Hne].
  - split; [intros _; lia|eauto].
  - split; [intros [h [=]]|intros ?; lia].
Qed.

Lemma exact_count_full_iff_equal_witness :
  ((testCode (code_of "ABCD") (code_of "ABCD")).1 = NUM_FIELDS
   ↔ code_of "ABCD" = code_of "ABCD")
  ∧ ∀ (game : Mastermind) (previousGuesses : list Guess),
      solution game = code_of "ABCD" →
      let response := testCombination game (code_of "ABCD") in
      (∃ h, playNextGuess previousGuesses (code_of "ABCD")
              (Z.of_nat response.1) (Z.of_nat response.2) = Win h)
      ↔ code_of "ABCD" = code_of "ABCD".
Proof.
  apply (exact_count_full_iff_equal (code_of "ABCD") (code_of "ABCD"));
    reflexivity.
Defined.

(** ** Candidate fitness *)

Lemma differences_consistent (this : Combination) (history : list Guess)
    (k : nat) (sv : Z) :
  Forall (consistent_with (code this)) history →
  ∃ sv', foldl (calculateFitness_step this) (0, 0, sv)%Z
               (zip (seq k (length history)) history) = (0, 0, sv')%Z.
Proof.
  revert k sv. induction history as [|r history IH]; intros k sv Hall.
  - by exists sv.
  - apply Forall_cons in Hall as [[Hx Hy] Hall].
    cbn [length seq zip zip_with foldl calculateFitness_step].
    rewrite (testCode_swap (code this) (guess_code r)), Hx, Hy.
    rewrite !Z.sub_diag. cbn [Z.abs Z.add].
    by apply IH.
Qed.

(** C2. When every entry of the history stores the feedback of its guess
    against a fixed secret, [calculateFitness] on a fresh candidate whose
    code is the secret finds both difference totals zero and sets
    [eligible]. (The history may be of any length.) *)
Theorem secret_candidate_eligible (secret : list ascii)
    (history : list Guess) :
  Forall (consistent_with secret) history →
  let candidate := calculateFitness (new_Combination (Arr secret)) history in
  eligible candidate = true
  ∧ ∃ slickValue,
      differences (new_Combination (Arr secret)) history
      = (0, 0, slickValue)%Z.
Proof.
  intros Hall.
  destruct (differences_consistent (new_Combination (Arr secret)) history
              0 0%Z Hall) as [sv' Hd].
  unfold calculateFitness, differences. rewrite Hd. cbn. eauto.
Qed.

Lemma secret_candidate_eligible_witness :
  let secret := code_of "ABCD" in
  let history := [ {| guess_code := code_of "AABB"; x := 1; y := 1 |};
                   {| guess_code := code_of "BACD"; x := 2; y := 2 |} ] in
  let candidate := calculateFitness (new_Combination (Arr secret)) history in
  eligible candidate = true
  ∧ ∃ slickValue,
      differences (new_Combination (Arr secret)) history
      = (0, 0, slickValue)%Z.
Proof.
  apply (secret_candidate_eligible (code_of "ABCD")).
  repeat constructor.
Defined.

(** ** The guess selector *)

Lemma response_key_small_inj (a b a' b' : nat) :
  a ≤ 4 → b ≤ 4 → a' ≤ 4 → b' ≤ 4 →
  response_key (a, b) = response_key (a', b') → (a, b) = (a', b').
Proof.
  intros Ha Hb Ha' Hb'.
  assert (∀ n, n ≤ 4 → n ∈ [0; 1; 2; 3; 4]) as Hcases.
  { intros n Hn. do 5 (destruct n as [|n]; [set_solver|]). lia. }
  apply Hcases in Ha, Hb, Ha', Hb'.
  repeat match goal with
         | H : _ ∈ _ :: _ |- _ => apply elem_of_cons in H as [->|H]
         | H : _ ∈ [] |- _ => by apply elem_of_nil in H
         end; vm_compute; congruence.
Qed.

Lemma response_key_testCode_inj (c1 s1 c2 s2 : list ascii) :
  response_key (testCode c1 s1) = response_key (testCode c2 s2)
  ↔ testCode c1 s1 = testCode c2 s2.
Proof.
  split; [|by intros ->].
  pose proof (testCode_counts_le c1 s1) as H1.
  pose proof (testCode_counts_le c2 s2) as H2.
  destruct (testCode c1 s1) as [a b], (testCode c2 s2) as [a' b'].
  unfold NUM_FIELDS in *. cbn [fst snd] in *.
  apply response_key_small_inj; lia.
Qed.

Lemma foldl_count {A} (P : A → Prop) `{!∀ x, Decision (P x)}
    (l : list A) (sum : nat) :
  foldl (λ sum k, if decide (P k) then S sum else sum) sum l
  = sum + length (filter P l).
Proof.
  revert sum. induction l as [|k l IH]; intros sum; simpl; [lia|].
  rewrite IH, filter_cons. case_decide; simpl; lia.
Qed.

Lemma foldl_sum {A} (h : A → nat) (l : list A) (sum : nat) :
  foldl (λ sum r, sum + h r) sum l = sum + sum_list (h <$> l).
Proof.
  revert sum. induction l as [|r l IH]; intros sum; [simpl; lia|].
  rewrite fmap_cons. cbn [foldl sum_list sum_list_with]. rewrite IH.
  unfold id. lia.
Qed.

Lemma foldl_ext_eq {A B} (f g : B → A → B) (l : list A) (b : B) :
  (∀ b a, f b a = g b a) → foldl f b l = foldl g b l.
Proof.
  intros Hfg. revert b. induction l as [|a l IH]; intros b; simpl; [done|].
  by rewrite Hfg, IH.
Qed.

(** The loops of [chooseNextGuess] compute the split sum of the
    specification. *)
Lemma split_sum_refines (E : list string) (g : string) :
  split_sum E g = split_count E g.
Proof.
  unfold split_sum, split_count, Underscore.without.
  set (others := filter (λ m, m ≠ g) E).
  rewrite <-(Nat.add_0_l (sum_list _)), <-foldl_sum.
  apply foldl_ext_eq. intros sum r.
  rewrite foldl_count. f_equal. f_equal.
  apply list_filter_iff. intros k.
  rewrite response_key_testCode_inj. split; intros H ?; by apply H.
Qed.

(** The loop over the candidates keeps the first candidate that reaches
    the running maximum. *)
Lemma chooseNextGuess_loop (E : list string) (init : option string)
    (l : list string) :
  ∃ mx ng,
    foldl (chooseNextGuess_step E) (0, init) l = (mx, ng)
    ∧ (∀ m, m ∈ l → split_sum E m ≤ mx)
    ∧ ((mx = 0 ∧ ng = init)
       ∨ (0 < mx ∧ ∃ i g,
            l !! i = Some g ∧ ng = Some g ∧ split_sum E g = mx
            ∧ ∀ j m, j < i → l !! j = Some m → split_sum E m < mx)).
Proof.
  induction l as [|a l IH] using rev_ind.
  - exists 0, init. split_and!; [done| |by left].
    intros m Hm. by apply elem_of_nil in Hm.
  - destruct IH as (mx & ng & Hfold & Hle & Hcase).
    rewrite foldl_app, Hfold. cbn [foldl chooseNextGuess_step].
    destruct (Nat.ltb_spec mx (split_sum E a)) as [Hlt|Hge].
    + exists (split_sum E a), (Some a). split_and!; [done| |right].
      * intros m [Hm| ->%list_elem_of_singleton]%elem_of_app; [|done].
        specialize (Hle m Hm). lia.
      * split; [lia|]. exists (length l), a. split_and!; [|done|done|].
        { by rewrite lookup_app_r, Nat.sub_diag by lia. }
        intros j m Hj Hjm. rewrite lookup_app_l in Hjm by done.
        apply list_elem_of_lookup_2 in Hjm. specialize (Hle m Hjm). lia.
    + exists mx, ng. split_and!; [done| |].
      * intros m [Hm| ->%list_elem_of_singleton]%elem_of_app; [auto|done].
      * destruct Hcase as [?|(Hpos & i & g & Hi & Hng & Hg & Hfirst)];
          [by left|right].
        split; [done|]. exists i, g.
        pose proof (lookup_lt_Some _ _ _ Hi) as Hilt.
        split_and!; [by rewrite lookup_app_l by done|done|done|].
        intros j m Hj Hjm. rewrite lookup_app_l in Hjm by lia. eauto.
Qed.

(** C7. On a non-empty eligible set [chooseNextGuess] returns a member
    that attains the maximum split sum, the first such member in the
    order of the array; a set of one member yields that member. *)
Theorem chooseNextGuess_first_maximum (eligible : list string) :
  eligible ≠ [] →
  (∃ i g,
     eligible !! i = Some g
     ∧ chooseNextGuess eligible = Some (code_of g)
     ∧ (∀ m, m ∈ eligible → split_count eligible m ≤ split_count eligible g)
     ∧ (∀ j m, j < i → eligible !! j = Some m →
               split_count eligible m < split_count eligible g))
  ∧ (∀ g, eligible = [g] → chooseNextGuess eligible = Some (code_of g)).
Proof.
  intros Hne.
  assert (∃ i g,
     eligible !! i = Some g
     ∧ chooseNextGuess eligible = Some (code_of g)
     ∧ (∀ m, m ∈ eligible → split_count eligible m ≤ split_count eligible g)
     ∧ (∀ j m, j < i → eligible !! j = Some m →
               split_count eligible m < split_count eligible g)) as Hmain.
  { destruct (chooseNextGuess_loop eligible (eligible !! 0) eligible)
      as (mx & ng & Hfold & Hle & Hcase).
    unfold chooseNextGuess. rewrite Hfold.
    destruct Hcase as [[-> ->]|(Hpos & i & g & Hi & -> & Hg & Hfirst)].
    - destruct eligible as [|g0 rest]; [done|].
      exists 0, g0. split_and!; [done|done| |intros; lia].
      intros m Hm. rewrite <-!split_sum_refines.
      specialize (Hle m Hm). lia.
    - exists i, g. split_and!; [done|done| |].
      + intros m Hm. rewrite <-!split_sum_refines, Hg. auto.
      + intros j m Hj Hjm. rewrite <-!split_sum_refines, Hg. eauto. }
  split; [done|].
  intros g ->. destruct Hmain as (i & g' & Hi & Hres & _).
  apply list_lookup_singleton_Some in Hi as [_ ->]. done.
Qed.

Lemma chooseNextGuess_first_maximum_witness :
  let eligible := ["ABCD"; "ABDC"; "AACD"]%string in
  (∃ i g,
     eligible !! i = Some g
     ∧ chooseNextGuess eligible = Some (code_of g)
     ∧ (∀ m, m ∈ eligible → split_count eligible m ≤ split_count eligible g)
     ∧ (∀ j m, j < i → eligible !! j = Some m →
               split_count eligible m < split_count eligible g))
  ∧ (∀ g, eligible = [g] → chooseNextGuess eligible = Some (code_of g)).
Proof.
  apply (chooseNextGuess_first_maximum ["ABCD"; "ABDC"; "AACD"]%string).
  discriminate.
Defined.

(** ** Underscore helpers *)

Section UnderscoreFacts.
Context {A : Type} `{EqDecision A}.
Implicit Types l k acc : list A.

Lemma uniq_foldl_NoDup l acc :
  NoDup acc → NoDup (foldl Underscore.uniq_step acc l).
Proof.
  revert acc. induction l as [|a l IH]; intros acc Hacc; simpl; [done|].
  apply IH. unfold Underscore.uniq_step. case_decide; [done|].
  apply NoDup_app. split_and!; [done| |apply NoDup_singleton].
  intros y Hy ->%list_elem_of_singleton. done.
Qed.

Lemma uniq_foldl_elem_of l acc y :
  y ∈ foldl Underscore.uniq_step acc l ↔ y ∈ acc ∨ y ∈ l.
Proof.
  revert acc. induction l as [|a l IH]; intros acc; simpl.
  - split; [by left|]. intros [?|Hn]; [done|by apply elem_of_nil in Hn].
  - rewrite IH, elem_of_cons. unfold Underscore.uniq_step. case_decide.
    + split; [tauto|]. intros [?|[->|?]]; tauto.
    + rewrite elem_of_app, list_elem_of_singleton. tauto.
Qed.

Lemma uniq_foldl_length l acc :
  length (foldl Underscore.uniq_step acc l) ≤ length acc + length l.
Proof.
  revert acc. induction l as [|a l IH]; intros acc; simpl; [lia|].
  etrans; [apply IH|]. unfold Underscore.uniq_step.
  case_decide; rewrite ?length_app; simpl; lia.
Qed.

Lemma uniq_foldl_id l acc :
  NoDup (acc ++ l) → foldl Underscore.uniq_step acc l = acc ++ l.
Proof.
  revert acc. induction l as [|a l IH]; intros acc Hnd; simpl.
  - by rewrite app_nil_r.
  - unfold Underscore.uniq_step at 2. rewrite decide_False; last first.
    { apply NoDup_app in Hnd as (_ & Hdisj & _).
      intros Ha. apply (Hdisj a Ha). by left. }
    rewrite IH; [by rewrite <-app_assoc|].
    by rewrite <-app_assoc.
Qed.

Lemma NoDup_uniq l : NoDup (Underscore.uniq l).
Proof. apply uniq_foldl_NoDup, NoDup_nil_2. Qed.

Lemma elem_of_uniq l y : y ∈ Underscore.uniq l ↔ y ∈ l.
Proof.
  unfold Underscore.uniq.
  rewrite (uniq_foldl_elem_of l [] y).
  split; [intros [Hn|?]; [by apply elem_of_nil in Hn|done]|by right].
Qed.

Lemma length_uniq l : length (Underscore.uniq l) ≤ length l.
Proof. apply (uniq_foldl_length l []). Qed.

Lemma uniq_NoDup_id l : NoDup l → Underscore.uniq l = l.
Proof. intros Hnd. by apply (uniq_foldl_id l []). Qed.

Lemma submseteq_NoDup_l l k : l ⊆+ k → NoDup k → NoDup l.
Proof.
  intros [k' Hk]%submseteq_Permutation Hnd.
  rewrite Hk in Hnd. by apply NoDup_app in Hnd as (? & _).
Qed.

(** A list without repetition loses at most [length k] elements to
    [_.difference(l, k)]. *)
Lemma length_difference_ge l k :
  NoDup l →
  length l ≤ length (Underscore.difference l k) + length k.
Proof.
  intros Hnd. rewrite <-length_app. apply submseteq_length.
  apply NoDup_submseteq; [done|]. intros y Hy.
  rewrite elem_of_app. unfold Underscore.difference.
  rewrite list_elem_of_difference.
  destruct (decide (y ∈ k)); [by right|by left].
Qed.

Lemma is_sample_first (l : list A) (n : Z) (g : RNG) :
  Underscore.is_sample l n (Underscore.sample_first A l n g).1.
Proof.
  unfold Underscore.is_sample, Underscore.sample_first. cbn.
  split.
  - apply sublist_submseteq, sublist_take.
  - rewrite length_take. lia.
Qed.

End UnderscoreFacts.

(** ** The code space *)

Lemma join_inj (a b : list ascii) : join a = join b → a = b.
Proof.
  intros Heq.
  rewrite <-(String.list_ascii_of_string_of_list_ascii a),
          <-(String.list_ascii_of_string_of_list_ascii b).
  unfold join in Heq. by rewrite Heq.
Qed.

Lemma code_of_join (a : list ascii) : code_of (join a) = a.
Proof. apply String.list_ascii_of_string_of_list_ascii. Qed.

Lemma join_code_of (e : string) : join (code_of e) = e.
Proof. apply String.string_of_list_ascii_of_string. Qed.

Lemma length_bind_prefix {A} (ws : list (list A)) (syms : list A) :
  length (syms ≫= λ sym, cons sym <$> ws) = length syms * length ws.
Proof.
  induction syms as [|sym syms IHs]; [done|].
  rewrite bind_cons, length_app, length_fmap, IHs. cbn. lia.
Qed.

Section CodeSpace.
Variable symbols : list ascii.

(** [variations] appends to [results] the strings of the words of [depth]
    symbols, each prefixed with [variation], in order. *)
Lemma variations_words (depth : nat) (variation : list ascii)
    (results : list string) :
  variations symbols depth variation results
  = results ++ ((λ w, join (variation ++ w)) <$> words symbols depth).
Proof.
  revert variation results.
  induction depth as [|depth IH]; intros variation results.
  - cbn. by rewrite app_nil_r.
  - cbn [variations words].
    generalize symbols at 2 4 as syms. intros syms. revert results.
    induction syms as [|sym syms IHs]; intros results.
    + cbn. by rewrite app_nil_r.
    + cbn [foldl]. rewrite IH, IHs, bind_cons, fmap_app, <-app_assoc.
      f_equal. f_equal. rewrite <-list_fmap_compose.
      apply list_fmap_ext. intros _ w _. cbn. by rewrite <-app_assoc.
Qed.

Lemma elem_of_words (depth : nat) (w : list ascii) :
  w ∈ words symbols depth
  ↔ length w = depth ∧ Forall (λ sym, sym ∈ symbols) w.
Proof.
  revert w. induction depth as [|depth IH]; intros w.
  - cbn. rewrite list_elem_of_singleton. split.
    + by intros ->.
    + intros [Hlen _]. by destruct w.
  - cbn [words]. rewrite list_elem_of_bind. split.
    + intros (sym & Hw & Hsym).
      apply list_elem_of_fmap in Hw as (w' & -> & [Hlen Hall]%IH).
      split; [cbn; lia|by constructor].
    + intros [Hlen Hall]. destruct w as [|sym w']; [done|].
      apply Forall_cons in Hall as [Hsym Hall].
      exists sym. split; [|done].
      apply list_elem_of_fmap. exists w'. split; [done|].
      apply IH. split; [cbn in Hlen; lia|done].
Qed.

Lemma NoDup_words (depth : nat) :
  NoDup symbols → NoDup (words symbols depth).
Proof.
  intros Hnd. induction depth as [|depth IH]; [apply NoDup_singleton|].
  cbn [words]. apply NoDup_bind; [|intros sym _|done].
  - intros s1 s2 w _ _ (w1 & -> & _)%list_elem_of_fmap
      (w2 & [= -> _] & _)%list_elem_of_fmap. done.
  - apply NoDup_fmap_2; [|done]. by intros w1 w2 [= ->].
Qed.

Lemma length_words (depth : nat) :
  length (words symbols depth) = length symbols ^ depth.
Proof.
  induction depth as [|depth IH]; [done|].
  cbn [words Nat.pow]. by rewrite length_bind_prefix, IH.
Qed.

End CodeSpace.

Lemma allCodes_words : allCodes = join <$> words SYMBOLS NUM_FIELDS.
Proof. unfold allCodes. by rewrite variations_words. Qed.

(** The code space: every code of [NUM_FIELDS] symbols of the alphabet,
    once. *)
Lemma length_allCodes : length allCodes = 1296.
Proof. by rewrite allCodes_words, length_fmap, length_words. Qed.

Lemma NoDup_allCodes : NoDup allCodes.
Proof.
  rewrite allCodes_words. apply NoDup_fmap_2.
  - intros a b. apply join_inj.
  - apply NoDup_words. apply (bool_decide_unpack (NoDup SYMBOLS)).
    by vm_compute.
Qed.

Lemma elem_of_allCodes (e : string) : e ∈ allCodes ↔ is_code (code_of e).
Proof.
  rewrite allCodes_words, list_elem_of_fmap. unfold is_code. split.
  - intros (w & -> & Hw%elem_of_words). by rewrite code_of_join.
  - intros Hw%elem_of_words. exists (code_of e).
    by rewrite join_code_of.
Qed.

(** The enumeration is only ever used through the facts above. *)
#[global] Opaque allCodes.

(** ** The population engine *)

Lemma getCodeString_new_Combination (e : string) :
  getCodeString (new_Combination (Str e)) = e.
Proof. apply String.string_of_list_ascii_of_string. Qed.

Lemma code_of_inj (s1 s2 : string) : code_of s1 = code_of s2 → s1 = s2.
Proof.
  intros Heq.
  rewrite <-(String.string_of_list_ascii_of_string s1),
          <-(String.string_of_list_ascii_of_string s2).
  unfold code_of in Heq. by rewrite Heq.
Qed.

Lemma length_evaluate_foldl prevGuesses ms seen eiSet :
  length (foldl (evaluate_step prevGuesses) (seen, eiSet) ms).1
  = length seen + length ms.
Proof.
  revert seen eiSet. induction ms as [|m ms IH]; intros seen eiSet; simpl.
  - lia.
  - rewrite IH, length_app. simpl. lia.
Qed.

Lemma length_evaluate prevGuesses ms eiSet :
  length (evaluate prevGuesses ms eiSet).1 = length ms.
Proof. apply (length_evaluate_foldl prevGuesses ms [] eiSet). Qed.

Lemma length_insert_by_fitness m sorted :
  length (insert_by_fitness m sorted) = S (length sorted).
Proof.
  induction sorted as [|m' rest IH]; simpl; [done|].
  case_match; simpl; by rewrite ?IH.
Qed.

Lemma length_sort ms : length (sort ms) = length ms.
Proof.
  induction ms as [|m ms IH]; simpl; [done|].
  by rewrite length_insert_by_fitness, IH.
Qed.

Lemma length_splice_0_2 ms c0 c1 :
  2 ≤ length ms → length (splice_0_2 ms c0 c1) = length ms.
Proof. intros Hlen. unfold splice_0_2. simpl. rewrite length_drop. lia. Qed.

(** The test at the head of [generation], as a proposition. *)
Lemma halts_true_iff prevGuesses eiSet maxGen :
  halts prevGuesses eiSet maxGen = true
  ↔ ((maxGen ≤ 0)%Z ∨ length eiSet = SET_SIZE)
    ∧ ¬ (1 < length prevGuesses ∧ length eiSet < 1).
Proof.
  unfold halts.
  destruct (Z.leb_spec maxGen 0), (Nat.eqb_spec (length eiSet) SET_SIZE),
    (Nat.ltb_spec 1 (length prevGuesses)), (Nat.ltb_spec (length eiSet) 1);
    simpl; split; try done; try lia; intros; split; try lia; tauto.
Qed.

Section EngineFacts.

Variable sample : ∀ A : Type, list A → Z → Rand (list A).

(** The contract of [_.sample(list, n)]. *)
Hypothesis sample_spec :
  ∀ (A : Type) (l : list A) (n : Z) (g : RNG),
    Underscore.is_sample l n (sample A l n g).1.

(** The refill keeps the distinct code strings of the members, in
    order, and appends the sample of the unused codes. *)
Lemma refill_shape (this_size : Z) (ms : list Combination) (g : RNG) :
  let uniqueCodes := Underscore.uniq (getCodeString <$> ms) in
  let unused := Underscore.difference allCodes uniqueCodes in
  ∃ newMembers,
    Underscore.is_sample unused
      (this_size - Z.of_nat (length uniqueCodes)) newMembers
    ∧ (refill sample this_size ms g).1
      = (λ e, new_Combination (Str e)) <$> (uniqueCodes ++ newMembers)
    ∧ NoDup (uniqueCodes ++ newMembers).
Proof.
  intros uniqueCodes unused.
  unfold refill, mbind, Rand_bind, mret, Rand_ret.
  fold uniqueCodes. fold unused.
  pose proof (sample_spec string unused
                (this_size - Z.of_nat (length uniqueCodes)) g) as Hs.
  destruct (sample string unused _ g) as [newMembers g'].
  cbn [fst] in *. exists newMembers.
  assert (NoDup (uniqueCodes ++ newMembers)) as Hnd.
  { destruct Hs as [Hsub _]. apply NoDup_app. split_and!.
    - apply NoDup_uniq.
    - intros e He Hnew.
      assert (e ∈ unused) as Hin.
      { eapply elem_of_submseteq; done. }
      unfold unused, Underscore.difference in Hin.
      apply list_elem_of_difference in Hin as [_ Hin]. done.
    - eapply submseteq_NoDup_l; [done|].
      apply NoDup_list_difference, NoDup_allCodes. }
  split_and!; [done| |done].
  unfold Underscore.union. by rewrite uniq_NoDup_id.
Qed.

Lemma breed_some (ms : list Combination) (g : RNG) :
  2 ≤ length ms →
  ∃ ms' g1, breed sample ms g = (Some ms', g1) ∧ length ms' = length ms.
Proof.
  intros Hlen. unfold breed.
  pose proof (length_sort ms) as Hsort.
  set (sorted := sort ms) in *.
  unfold lookupZ.
  rewrite !(proj2 (Z.ltb_ge _ _)) by lia.
  destruct (lookup_lt_is_Some_2 sorted
              (Z.to_nat (Z.of_nat (length sorted) - 1))) as [last Hlast];
    [lia|].
  destruct (lookup_lt_is_Some_2 sorted
              (Z.to_nat (Z.of_nat (length sorted) - 1 - 1)))
    as [other Hother]; [lia|].
  rewrite Hlast, Hother.
  unfold mbind, Rand_bind, mret, Rand_ret.
  destruct (crossover last other g) as [[n0 n1] g0]. cbn [fst snd].
  destruct (vary sample n0 g0) as [c0 g0'].
  destruct (vary sample n1 g0') as [c1 g1].
  exists (splice_0_2 sorted c0 c1), g1. split; [done|].
  rewrite length_splice_0_2 by lia. done.
Qed.

(** A call that passes the test at its head, on a population of at least
    two members, arms the next call: nothing throws. *)
Lemma generation_scheduled (this : Population) (prevGuesses : list Guess)
    (eiSet : list string) (maxGen : Z) (g : RNG) :
  halts prevGuesses eiSet maxGen = false →
  2 ≤ length (members this) →
  ∃ ms g1,
    breed sample (evaluate prevGuesses (members this) eiSet).1 g
    = (Some ms, g1)
    ∧ length ms = length (members this)
    ∧ generation sample this prevGuesses eiSet maxGen g
      = (Scheduled
           {| members := (refill sample (size this) ms g1).1;
              size := size this |}
           (evaluate prevGuesses (members this) eiSet).2
           (maxGen - 1),
         (refill sample (size this) ms g1).2).
Proof.
  intros Hhalt Hlen. unfold generation. rewrite Hhalt.
  pose proof (length_evaluate prevGuesses (members this) eiSet) as Hev.
  destruct (evaluate prevGuesses (members this) eiSet) as [ms0 eiSet'].
  cbn [fst snd] in *.
  destruct (breed_some ms0 g) as (ms & g1 & Hbreed & Hms); [lia|].
  exists ms, g1. split_and!; [done|lia|].
  unfold mbind, Rand_bind, mret, Rand_ret. rewrite Hbreed.
  by destruct (refill sample (size this) ms g1).
Qed.

End EngineFacts.

(** ** The random source *)

Lemma rand_bind_run {A B} (m : Rand A) (k : A → Rand B) (g : RNG) :
  (m ≫= k) g = k (m g).1 (m g).2.
Proof. unfold mbind, Rand_bind. by destruct (m g). Qed.

Lemma floor_between (q : Q) (a b : Z) :
  (inject_Z a <= q)%Q → (q < inject_Z b)%Q → (a ≤ Qfloor q < b)%Z.
Proof.
  intros Ha Hb. split.
  - rewrite <-(Qfloor_Z a). by apply Qfloor_resp_le.
  - rewrite Zlt_Qlt. eapply Qle_lt_trans; [apply Qfloor_le|done].
Qed.

(** [Math.floor(Math.random() * k)] is an index below [k]. *)
Lemma floor_scaled_range (u : Q) (k : Z) :
  (0 <= u)%Q → (u < 1)%Q → (0 < k)%Z →
  (0 ≤ Qfloor (u * inject_Z k) < k)%Z.
Proof.
  intros Hu0 Hu1 Hk.
  assert (0 < inject_Z k)%Q as Hk'.
  { change 0%Q with (inject_Z 0). by rewrite <-Zlt_Qlt. }
  apply floor_between.
  - apply Qmult_le_0_compat; [done|by apply Qlt_le_weak].
  - apply Qlt_le_trans with (1 * inject_Z k)%Q;
      [by apply Qmult_lt_compat_r|].
    rewrite Qmult_1_l. apply Qle_refl.
Qed.

(** The position that [mutate] writes is inside a code of [NUM_FIELDS]
    symbols. *)
Lemma mutate_position_in_range (g : RNG) :
  valid_rng g →
  Z.to_nat (Qfloor ((Math_random g).1 * inject_Z (Z.of_nat NUM_FIELDS)))
  < NUM_FIELDS.
Proof.
  intros Hg. destruct (Hg 0) as [H0 H1]. cbn [Math_random fst].
  pose proof (floor_scaled_range (g 0) (Z.of_nat NUM_FIELDS) H0 H1).
  unfold NUM_FIELDS in *. lia.
Qed.

(** ** Rounding to binary64 *)






(** ** Codes keep [NUM_FIELDS] symbols

    Every array write of [mutate] and [permutate] is in range: the codes
    of a population have [NUM_FIELDS] symbols, and the operators keep it
    so. *)

Lemma length_slices {A} (a b : list A) (z : Z) :
  length a = length b →
  length (slice_to a z ++ slice_from b z) = length a.
Proof.
  intros Hlen. unfold slice_to, slice_from. rewrite length_app.
  destruct (z <? 0)%Z; rewrite length_take, length_drop; lia.
Qed.

Lemma is_code_slices (a b : list ascii) (z : Z) :
  is_code a → is_code b → is_code (slice_to a z ++ slice_from b z).
Proof.
  intros [Hla Ha] [Hlb Hb]. split.
  - rewrite length_slices; [done|congruence].
  - unfold slice_to, slice_from. apply Forall_app.
    destruct (z <? 0)%Z; split; by (apply Forall_take || apply Forall_drop).
Qed.

Lemma wf_crossover (this other : Combination) (g : RNG) :
  wf_member this → wf_member other →
  wf_member (crossover this other g).1.1
  ∧ wf_member (crossover this other g).1.2.
Proof.
  unfold wf_member, crossover. intros Hthis Hother.
  rewrite rand_bind_run. cbn [mret Rand_ret fst snd new_Combination code].
  split; by apply is_code_slices.
Qed.

Lemma sample_one_elem_of {A} (l : list A) (g : RNG) (v : A) :
  (Underscore.sample_one l g).1 = Some v → v ∈ l.
Proof.
  unfold Underscore.sample_one. rewrite rand_bind_run.
  cbn [mret Rand_ret fst]. unfold lookupZ.
  case_match; [done|]. apply list_elem_of_lookup_2.
Qed.

Lemma wf_mutate (this : Combination) (g : RNG) :
  wf_member this → wf_member (mutate this g).1.
Proof.
  unfold wf_member, mutate. intros [Hlen Hall].
  rewrite !rand_bind_run. cbn [mret Rand_ret fst].
  destruct (Underscore.sample_one _ _).1 as [v|] eqn:Hv; [|done].
  apply sample_one_elem_of in Hv. cbn [with_code code]. split.
  - by rewrite length_insert.
  - apply Forall_insert; [done|].
    destruct (code this !! _); [|done].
    unfold Underscore.without in Hv.
    by apply list_elem_of_filter in Hv as [_ ?].
Qed.

Lemma wf_inverse (this : Combination) :
  wf_member this → wf_member (inverse this).
Proof.
  unfold wf_member, inverse. intros [Hlen Hall]. cbn. split.
  - by rewrite length_reverse.
  - by apply Forall_reverse.
Qed.

Section WellFormed.

Variable sample : ∀ A : Type, list A → Z → Rand (list A).
Hypothesis sample_spec : sample_contract sample.

Lemma wf_permutate (this : Combination) (g : RNG) :
  wf_member this → wf_member (permutate sample this g).1.
Proof.
  unfold wf_member, permutate. intros [Hlen Hall].
  rewrite rand_bind_run. cbn [mret Rand_ret fst].
  destruct (sample nat _ 2%Z g).1 as [|p0 [|p1 ps]]; try done.
  destruct (code this !! p0) as [v0|] eqn:H0; [|done].
  destruct (code this !! p1) as [v1|] eqn:H1; [|done].
  cbn [with_code code]. rewrite Forall_lookup in Hall. split.
  - by rewrite !length_insert.
  - apply Forall_insert; [apply Forall_insert|];
      [by apply Forall_lookup|eauto..].
Qed.

Lemma wf_vary (child : Combination) (g : RNG) :
  wf_member child → wf_member (vary sample child g).1.
Proof.
  intros Hchild. unfold vary. rewrite !rand_bind_run.
  unfold inversion_trial. rewrite rand_bind_run.
  set (c2 := (permutation_trial sample _ _).1).
  assert (wf_member c2) as Hc2.
  { unfold c2, permutation_trial. rewrite rand_bind_run.
    set (c1 := (mutation_trial child g).1).
    assert (wf_member c1) as Hc1.
    { unfold c1, mutation_trial. rewrite rand_bind_run.
      destruct (shouldDo MUTATION_PROBABILITY g).1;
        [by apply wf_mutate|done]. }
    destruct (shouldDo PERMUTATION_PROBABILITY _).1;
      [by apply wf_permutate|done]. }
  destruct (shouldDo INVERSION_PROBABILITY _).1; cbn;
    [by apply wf_inverse|done].
Qed.

Lemma wf_insert_by_fitness m sorted :
  wf_member m → Forall wf_member sorted →
  Forall wf_member (insert_by_fitness m sorted).
Proof.
  intros Hm. induction 1 as [|m' rest Hm' Hrest IH]; simpl.
  - by apply Forall_singleton.
  - case_match; [by repeat apply Forall_cons_2|by apply Forall_cons_2].
Qed.

Lemma wf_sort ms : Forall wf_member ms → Forall wf_member (sort ms).
Proof.
  induction 1 as [|m ms Hm Hms IH]; simpl; [constructor|].
  by apply wf_insert_by_fitness.
Qed.

Lemma wf_evaluate prevGuesses ms eiSet :
  Forall wf_member ms →
  Forall wf_member (evaluate prevGuesses ms eiSet).1.
Proof.
  unfold evaluate. intros Hms.
  assert (Forall wf_member ([] : list Combination)) as Hseen
    by constructor.
  revert Hseen. generalize ([] : list Combination) as seen.
  revert eiSet. induction Hms as [|m ms Hm Hms IH]; intros eiSet seen Hseen.
  - done.
  - cbn [foldl evaluate_step]. apply IH.
    apply Forall_app. split; [done|]. apply Forall_singleton.
    unfold wf_member, calculateFitness in *.
    by destruct (differences m prevGuesses) as [[? ?] ?].
Qed.

Lemma wf_breed ms g ms' g1 :
  Forall wf_member ms →
  breed sample ms g = (Some ms', g1) →
  Forall wf_member ms'.
Proof.
  intros Hms%wf_sort. unfold breed.
  set (sorted := sort ms) in *.
  set (lastIndex := (Z.of_nat (length sorted) - 1)%Z).
  destruct (lookupZ sorted lastIndex) as [last|] eqn:Hlast; [|done].
  destruct (lookupZ sorted (lastIndex - 1)) as [other|] eqn:Hother;
    [|done].
  assert (wf_member last ∧ wf_member other) as [Hl Ho].
  { unfold lookupZ in *. rewrite Forall_lookup in Hms.
    destruct (lastIndex <? 0)%Z; [done|].
    destruct (lastIndex - 1 <? 0)%Z; [done|]. eauto. }
  rewrite !rand_bind_run. cbn [mret Rand_ret].
  intros [= <- <-]. unfold splice_0_2.
  destruct (wf_crossover last other g Hl Ho) as [H0 H1].
  repeat constructor; [by apply wf_vary..|].
  by apply Forall_drop.
Qed.

Lemma wf_refill this_size ms g :
  Forall wf_member ms →
  Forall wf_member (refill sample this_size ms g).1.
Proof.
  intros Hms.
  destruct (refill_shape sample sample_spec this_size ms g)
    as (newMembers & [Hsub _] & -> & _).
  apply Forall_fmap, Forall_app. split.
  - apply Forall_forall. intros e [m [-> Hm]]%elem_of_uniq%list_elem_of_fmap.
    rewrite Forall_forall in Hms. specialize (Hms m Hm).
    unfold wf_member, getCodeString in *. cbn.
    by rewrite code_of_join.
  - apply Forall_forall. intros e He.
    assert (e ∈ Underscore.difference allCodes
                  (Underscore.uniq (getCodeString <$> ms))) as Hin.
    { eapply elem_of_submseteq; done. }
    apply list_elem_of_difference in Hin as [Hin _].
    by apply elem_of_allCodes in Hin.
Qed.

(** One generation step keeps the members well formed. *)
Lemma wf_generation this prevGuesses eiSet maxGen g this' eiSet' n g' :
  Forall wf_member (members this) →
  generation sample this prevGuesses eiSet maxGen g
  = (Scheduled this' eiSet' n, g') →
  Forall wf_member (members this').
Proof.
  intros Hms. unfold generation.
  destruct (halts prevGuesses eiSet maxGen); [done|].
  pose proof (wf_evaluate prevGuesses (members this) eiSet Hms) as Hev.
  destruct (evaluate prevGuesses (members this) eiSet) as [ms eiSet1].
  rewrite rand_bind_run.
  destruct (breed sample ms g) as [[ms1|] g1] eqn:Hbreed; [|done].
  cbn [fst snd]. rewrite rand_bind_run. cbn [mret Rand_ret].
  intros [= <- _ _ _]. cbn [members].
  eapply wf_refill, wf_breed; done.
Qed.

(** [init] builds a population of distinct well-formed members: [size] of
    them, or the whole code space when it has fewer codes. *)
Lemma init_population (n : Z) (g : RNG) :
  let this := (init sample n g).1 in
  size this = n
  ∧ length (members this)
    = Z.to_nat (Z.min n (Z.of_nat (length allCodes)))
  ∧ NoDup (code <$> members this)
  ∧ Forall wf_member (members this).
Proof.
  unfold init. rewrite rand_bind_run. cbn.
  destruct (sample_spec string allCodes n g) as [Hsub Hlen].
  split_and!; [done| | |].
  - by rewrite length_fmap, Hlen.
  - rewrite <-list_fmap_compose.
    apply NoDup_fmap_2_strong; [intros ?? _ _; apply code_of_inj|].
    eapply submseteq_NoDup_l; [done|apply NoDup_allCodes].
  - apply Forall_fmap, Forall_forall. intros e He.
    apply elem_of_allCodes. eapply elem_of_submseteq; done.
Qed.

(** On well-formed members the unused codes are the rest of the code
    space. *)
Lemma length_unused_codes (ms : list Combination) :
  Forall wf_member ms →
  length (unused_codes ms)
  + length (Underscore.uniq (getCodeString <$> ms))
  = length allCodes.
Proof.
  intros Hms. unfold unused_codes, Underscore.difference.
  set (U := Underscore.uniq (getCodeString <$> ms)).
  rewrite <-length_app. symmetry. apply Permutation_length.
  apply NoDup_Permutation.
  - apply NoDup_allCodes.
  - apply NoDup_app. split_and!.
    + apply NoDup_list_difference, NoDup_allCodes.
    + by intros e [_ ?]%list_elem_of_difference.
    + apply NoDup_uniq.
  - intros e. rewrite elem_of_app, list_elem_of_difference. split.
    + intros He. destruct (decide (e ∈ U)); [by right|by left].
    + intros [[? _]|He]; [done|].
      apply elem_of_uniq, list_elem_of_fmap in He as (m & -> & Hm).
      rewrite Forall_forall in Hms. specialize (Hms m Hm).
      apply elem_of_allCodes. unfold getCodeString.
      by rewrite code_of_join.
Qed.

(** The invariant holds when the population is built, and every call of
    the chain of a round keeps it. *)
Lemma init_population_ok (n : Z) (g : RNG) :
  (2 ≤ n ≤ Z.of_nat (length allCodes))%Z →
  population_ok (init sample n g).1.
Proof.
  intros Hn. destruct (init_population n g) as (Hsize & Hlen & Hnd & Hwf).
  unfold population_ok. rewrite Hsize, Hlen. split_and!; [lia..|done|done].
Qed.

Lemma arms_population_ok (prevGuesses : list Guess) (c c' : Call) :
  arms sample prevGuesses c c' →
  population_ok (call_this c) → population_ok (call_this c').
Proof.
  unfold arms. intros Hgen (Hsize & Hlen & _ & Hwf).
  pose proof (wf_generation _ _ _ _ _ _ _ _ _ Hwf Hgen) as Hwf'.
  destruct (halts prevGuesses (call_eiSet c) (call_maxGen c)) eqn:Hhalt.
  { unfold generation in Hgen. by rewrite Hhalt in Hgen. }
  destruct (generation_scheduled sample (call_this c) prevGuesses
              (call_eiSet c) (call_maxGen c) (call_rng c) Hhalt)
    as (ms & g1 & _ & Hms & Hgen'); [lia|].
  rewrite Hgen' in Hgen. injection Hgen as Hthis _ _ _.
  destruct (refill_shape sample sample_spec (size (call_this c)) ms g1)
    as (newMembers & [Hsub Hnew] & Hrefill & Hnd).
  rewrite <-Hthis in *. unfold population_ok. cbn [members size] in *.
  split; [done|]. split; [|split; [|done]].
  - rewrite Hrefill, length_fmap, length_app, Hnew.
    pose proof (length_uniq (getCodeString <$> ms)) as Hu.
    rewrite length_fmap in Hu.
    pose proof (length_difference_ge allCodes
                  (Underscore.uniq (getCodeString <$> ms)) NoDup_allCodes).
    lia.
  - rewrite Hrefill, <-list_fmap_compose.
    apply NoDup_fmap_2_strong; [|done].
    intros e1 e2 _ _. apply code_of_inj.
Qed.

Lemma population_ok_throughout (prevGuesses : list Guess) (c c' : Call) :
  rtc (arms sample prevGuesses) c c' →
  population_ok (call_this c) → population_ok (call_this c').
Proof.
  induction 1 as [c|c c1 c' Harm _ IH]; [done|].
  intros Hok. eapply IH, arms_population_ok; done.
Qed.

End WellFormed.

(** ** The population engine: claims *)

Lemma sample_first_contract : sample_contract Underscore.sample_first.
Proof. intros A l n g. apply is_sample_first. Qed.

(** C5. A generation step on a population that holds [size] members, with
    [size] between two and the size of the code space (the default
    [POPULATION_SIZE] is), leaves exactly [size] members, whose codes are
    pairwise distinct. *)
Theorem generation_restores_population
    (sample : ∀ A : Type, list A → Z → Rand (list A))
    (this : Population) (prevGuesses : list Guess) (eiSet : list string)
    (maxGen : Z) (g : RNG) :
  sample_contract sample →
  (2 ≤ size this ≤ Z.of_nat (length allCodes))%Z →
  Z.of_nat (length (members this)) = size this →
  halts prevGuesses eiSet maxGen = false →
  ∃ this' eiSet' g',
    generation sample this prevGuesses eiSet maxGen g
    = (Scheduled this' eiSet' (maxGen - 1), g')
    ∧ size this' = size this
    ∧ Z.of_nat (length (members this')) = size this
    ∧ NoDup (code <$> members this').
Proof.
  intros Hsample Hsize Hlen Hhalt.
  destruct (generation_scheduled sample this prevGuesses eiSet maxGen g)
    as (ms & g1 & _ & Hms & Hgen); [done|lia|].
  destruct (refill_shape sample Hsample (size this) ms g1)
    as (newMembers & [Hsub Hnew] & Hrefill & Hnd).
  eexists _, _, _. split; [exact Hgen|]. cbn [members size].
  split; [done|]. rewrite Hrefill. split.
  - rewrite length_fmap, length_app, Hnew.
    pose proof (length_uniq (getCodeString <$> ms)) as Hu.
    rewrite length_fmap in Hu.
    pose proof (length_difference_ge allCodes
                  (Underscore.uniq (getCodeString <$> ms)) NoDup_allCodes).
    lia.
  - rewrite <-list_fmap_compose.
    apply NoDup_fmap_2_strong; [|done].
    intros e1 e2 _ _. apply code_of_inj.
Qed.

Lemma generation_restores_population_witness :
  ∃ this' eiSet' g',
    generation Underscore.sample_first first_population first_history []
      MAXGEN rng_half
    = (Scheduled this' eiSet' (MAXGEN - 1), g')
    ∧ size this' = size first_population
    ∧ Z.of_nat (length (members this')) = size first_population
    ∧ NoDup (code <$> members this').
Proof.
  destruct (init_population Underscore.sample_first sample_first_contract
              POPULATION_SIZE rng_half) as (Hsize & Hlen & _).
  fold first_population in Hsize, Hlen.
  apply (generation_restores_population Underscore.sample_first
           first_population first_history [] MAXGEN rng_half).
  - apply sample_first_contract.
  - rewrite Hsize, length_allCodes. unfold POPULATION_SIZE. lia.
  - rewrite Hlen, Hsize, length_allCodes. reflexivity.
  - reflexivity.
Defined.

(** C9, as the code has it.  No error is ever raised by the refill: a
    generation step on a population of at least two members always arms
    the next call, and when the refill asks for more unused codes than
    the code space still has, the population takes every unused code and
    is left with fewer members than its configured size. *)
Theorem exhausted_refill_underfills
    (sample : ∀ A : Type, list A → Z → Rand (list A))
    (this : Population) (prevGuesses : list Guess) (eiSet : list string)
    (maxGen : Z) (g : RNG) :
  sample_contract sample →
  halts prevGuesses eiSet maxGen = false →
  2 ≤ length (members this) →
  ∃ ms g1 this' eiSet' g',
    breed sample (evaluate prevGuesses (members this) eiSet).1 g
    = (Some ms, g1)
    ∧ generation sample this prevGuesses eiSet maxGen g
      = (Scheduled this' eiSet' (maxGen - 1), g')
    ∧ size this' = size this
    ∧ ((Z.of_nat (length (unused_codes ms)) < requested (size this) ms)%Z →
       length (members this')
       = length (Underscore.uniq (getCodeString <$> ms))
         + length (unused_codes ms)
       ∧ (Z.of_nat (length (members this')) < size this')%Z).
Proof.
  intros Hsample Hhalt Hlen.
  destruct (generation_scheduled sample this prevGuesses eiSet maxGen g)
    as (ms & g1 & Hbreed & Hms & Hgen); [done|done|].
  destruct (refill_shape sample Hsample (size this) ms g1)
    as (newMembers & [Hsub Hnew] & Hrefill & Hnd).
  eexists ms, g1, _, _, _. split_and!; [exact Hbreed|exact Hgen|done|].
  cbn [members size]. unfold requested, unused_codes. intros Hmore.
  rewrite Hrefill, length_fmap, length_app, Hnew. lia.
Qed.

Lemma exhausted_refill_underfills_witness :
  ∃ ms g1 this' eiSet' g',
    breed Underscore.sample_first
      (evaluate first_history (members oversized_population) []).1 rng_half
    = (Some ms, g1)
    ∧ generation Underscore.sample_first oversized_population first_history
        [] MAXGEN rng_half
      = (Scheduled this' eiSet' (MAXGEN - 1), g')
    ∧ size this' = size oversized_population
    ∧ ((Z.of_nat (length (unused_codes ms))
        < requested (size oversized_population) ms)%Z →
       length (members this')
       = length (Underscore.uniq (getCodeString <$> ms))
         + length (unused_codes ms)
       ∧ (Z.of_nat (length (members this')) < size this')%Z).
Proof.
  destruct (init_population Underscore.sample_first sample_first_contract
              1297 rng_half) as (_ & Hlen & _).
  fold oversized_population in Hlen.
  apply (exhausted_refill_underfills Underscore.sample_first
           oversized_population first_history [] MAXGEN rng_half).
  - apply sample_first_contract.
  - reflexivity.
  - rewrite Hlen, length_allCodes. apply (bool_decide_unpack (2 ≤ _)).
    by vm_compute.
Defined.

(** C9 as stated fails: on the population of [new Population(1297)] the
    refill asks for more unused codes than remain, yet the step raises
    nothing and arms the next call on a population of fewer than 1297
    members. *)
Lemma exhausted_refill_raises_nothing :
  match
    (breed Underscore.sample_first
       (evaluate first_history (members oversized_population) []).1
       rng_half).1,
    (generation Underscore.sample_first oversized_population first_history
       [] MAXGEN rng_half).1
  with
  | Some ms, Scheduled this' _ _ =>
      (Z.of_nat (length (unused_codes ms))
       < requested (size oversized_population) ms)%Z
      ∧ (Z.of_nat (length (members this')) < size this')%Z
  | _, _ => False
  end.
Proof.
  destruct (init_population Underscore.sample_first sample_first_contract
              1297 rng_half) as (Hsize & Hlen & _ & Hwf).
  fold oversized_population in Hsize, Hlen, Hwf.
  rewrite length_allCodes in Hlen.
  assert (length (members oversized_population) = 1296) as Hlen'
    by (rewrite Hlen; by vm_compute).
  destruct (generation_scheduled Underscore.sample_first
              oversized_population first_history [] MAXGEN rng_half)
    as (ms & g1 & Hbreed & Hms & Hgen); [reflexivity|lia|].
  rewrite Hbreed, Hgen. cbn [fst members size]. rewrite Hsize.
  assert (Forall wf_member ms) as Hwfms.
  { eapply (wf_breed Underscore.sample_first); [|exact Hbreed].
    by apply wf_evaluate. }
  pose proof (length_unused_codes ms Hwfms) as Hcount.
  rewrite length_allCodes in Hcount.
  destruct (refill_shape Underscore.sample_first sample_first_contract
              1297 ms g1) as (newMembers & [_ Hnew] & -> & _).
  fold (unused_codes ms) in Hnew.
  rewrite length_fmap, length_app, Hnew. unfold requested. lia.
Qed.

(** The test at the head of [generation], as the code has it: the call
    halts (invokes the callback and runs no generation) exactly when the
    generations are used up or the eligible set holds exactly [SET_SIZE]
    entries ([eiSet.length == SET_SIZE]), and it is not the case that the
    history has more than one guess while the eligible set is empty; in
    that last case it never halts, whatever the remaining budget, and on
    a population of at least two members it runs the generation and arms
    the next call. *)
Lemma generation_halts_iff
    (sample : ∀ A : Type, list A → Z → Rand (list A))
    (this : Population) (prevGuesses : list Guess) (eiSet : list string)
    (maxGen : Z) (g : RNG) :
  ((generation sample this prevGuesses eiSet maxGen g).1 = Halted
   ↔ ((maxGen ≤ 0)%Z ∨ length eiSet = SET_SIZE)
     ∧ ¬ (1 < length prevGuesses ∧ length eiSet < 1))
  ∧ ((1 < length prevGuesses ∧ length eiSet < 1) →
     (generation sample this prevGuesses eiSet maxGen g).1 ≠ Halted
     ∧ (2 ≤ length (members this) →
        ∃ this' eiSet',
          (generation sample this prevGuesses eiSet maxGen g).1
          = Scheduled this' eiSet' (maxGen - 1))).
Proof.
  assert ((generation sample this prevGuesses eiSet maxGen g).1 = Halted
          ↔ halts prevGuesses eiSet maxGen = true) as Hiff.
  { unfold generation.
    destruct (halts prevGuesses eiSet maxGen); [done|].
    split; [|done].
    destruct (evaluate prevGuesses (members this) eiSet) as [ms eiSet'].
    unfold mbind, Rand_bind, mret, Rand_ret.
    destruct (breed sample ms g) as [[ms'|] g1]; [|done].
    by destruct (refill sample (size this) ms' g1). }
  rewrite Hiff, halts_true_iff. split; [done|].
  intros Hover.
  assert (halts prevGuesses eiSet maxGen = false) as Hhalt.
  { destruct (halts prevGuesses eiSet maxGen) eqn:Hh; [|done].
    apply halts_true_iff in Hh. tauto. }
  split; [tauto|]. intros Hlen.
  destruct (generation_scheduled sample this prevGuesses eiSet maxGen g
              Hhalt Hlen) as (ms & g1 & _ & _ & ->).
  eauto.
Qed.

(** C4 as stated fails: the default is not [0.05]. *)
Lemma permutation_probability_not_5_percent :
  ¬ (PERMUTATION_PROBABILITY == 0.05)%Q.
Proof. by vm_compute. Qed.

(** C4, as the code has it.  The default probability is [0.1]: a child
    undergoes [permutate] exactly when its draw of [Math.random()] is at
    most one tenth. *)
Theorem permutation_probability_one_tenth
    (sample : ∀ A : Type, list A → Z → Rand (list A))
    (child : Combination) (g : RNG) :
  (PERMUTATION_PROBABILITY == 1 # 10)%Q
  ∧ permutation_trial sample child g
    = if Qle_bool (g 0) (1 # 10)
      then permutate sample child (λ n, g (S n))
      else (child, λ n, g (S n)).
Proof.
  split; [reflexivity|].
  unfold permutation_trial, shouldDo, mbind, Rand_bind, mret, Rand_ret,
    Math_random, PERMUTATION_PROBABILITY.
  by destruct (Qle_bool (g 0) 0.1).
Qed.

(** C3 fails on this input, whatever the sample and the draws: one
    generation step of a round that starts with an empty eligible set
    pushes 150 codes, more than [SET_SIZE]; at the next boundary the test
    [eiSet.length == SET_SIZE] is false and the loop goes on. *)
Theorem eligible_set_overshoots_cap
    (sample : ∀ A : Type, list A → Z → Rand (list A)) (g : RNG) :
  match
    (generation sample overshoot_population overshoot_history [] MAXGEN g).1
  with
  | Scheduled _ eiSet' nextGen =>
      length eiSet' = 150
      ∧ SET_SIZE < length eiSet'
      ∧ halts overshoot_history eiSet' nextGen = false
  | _ => False
  end.
Proof.
  assert (length (evaluate overshoot_history (members overshoot_population)
                    []).2 = 150) as Hpushed by (by vm_compute).
  destruct (generation_scheduled sample overshoot_population
              overshoot_history [] MAXGEN g)
    as (ms & g1 & _ & _ & ->).
  - reflexivity.
  - apply (bool_decide_unpack (2 ≤ _)). by vm_compute.
  - cbn [fst]. rewrite Hpushed. split_and!; [done| |].
    + apply (bool_decide_unpack (SET_SIZE < 150)). by vm_compute.
    + unfold halts. rewrite Hpushed. reflexivity.
Qed.

(** C6 fails at the generation boundary that follows the first step of
    a round on [overshoot_population] with the history
    [overshoot_history].  There the eligible set holds 150 codes: it has
    reached its cap, [SET_SIZE ≤ eiSet.length]; and the history has one
    guess, so the exception for an empty eligible set does not apply.  By
    the claim the call halts.  It does not: [eiSet.length == SET_SIZE] is
    false and 249 generations remain, so the call runs another
    generation, for any sample and any draws. *)
Theorem generation_runs_past_cap
    (sample : ∀ A : Type, list A → Z → Rand (list A)) (g : RNG) :
  match
    generation sample overshoot_population overshoot_history [] MAXGEN g
  with
  | (Scheduled this' eiSet' nextGen, g') =>
      ((nextGen ≤ 0)%Z ∨ SET_SIZE ≤ length eiSet')
      ∧ ¬ (1 < length overshoot_history ∧ length eiSet' < 1)
      ∧ halts overshoot_history eiSet' nextGen = false
      ∧ (generation sample this' overshoot_history eiSet' nextGen g').1
        ≠ Halted
  | _ => False
  end.
Proof.
  assert (length (evaluate overshoot_history (members overshoot_population)
                    []).2 = 150) as Hpushed by (by vm_compute).
  destruct (generation_scheduled sample overshoot_population
              overshoot_history [] MAXGEN g)
    as (ms & g1 & _ & _ & ->).
  - reflexivity.
  - apply (bool_decide_unpack (2 ≤ _)). by vm_compute.
  - set (this' := {| members := _; size := _ |}).
    set (eiSet' := (evaluate _ _ _).2) in *.
    set (g' := (refill _ _ _ _).2).
    assert (halts overshoot_history eiSet' (MAXGEN - 1) = false) as Hhalt.
    { unfold halts. rewrite Hpushed. reflexivity. }
    split_and!.
    + right. rewrite Hpushed. unfold SET_SIZE. lia.
    + rewrite Hpushed. lia.
    + exact Hhalt.
    + intros Hhalted.
      destruct (generation_halts_iff sample this' overshoot_history eiSet'
                  (MAXGEN - 1) g') as [Hiff _].
      apply Hiff in Hhalted as [[Hgen|Hcap] _].
      * unfold MAXGEN in Hgen. lia.
      * rewrite Hpushed in Hcap. by vm_compute in Hcap.
Qed.

(* ================================================================== *)
(** * Further properties *)
(* ================================================================== *)

(** ** The scoring oracle *)

Section MultisetOfLists.
Context `{Countable A}.

Lemma size_list_to_set_disj (l : list A) :
  base.size (list_to_set_disj l : gmultiset A) = length l.
Proof.
  induction l as [|a l IH]; [apply gmultiset_size_empty|].
  rewrite list_to_set_disj_cons, gmultiset_size_disj_union,
    gmultiset_size_singleton, IH. done.
Qed.

Lemma list_to_set_disj_eq_perm (l k : list A) :
  (list_to_set_disj l : gmultiset A) = list_to_set_disj k → l ≡ₚ k.
Proof.
  revert k. induction l as [|a l IH]; intros k Heq.
  - destruct k as [|b k]; [done|]. exfalso.
    assert (b ∈ (list_to_set_disj (b :: k) : gmultiset A)) as Hb.
    { apply elem_of_list_to_set_disj. by left. }
    rewrite <-Heq in Hb. by apply gmultiset_not_elem_of_empty in Hb.
  - assert (a ∈ k) as [k' Hk]%elem_of_Permutation.
    { apply (elem_of_list_to_set_disj (H:=H)). rewrite <-Heq.
      apply elem_of_list_to_set_disj. by left. }
    rewrite Hk. constructor. apply IH.
    rewrite Hk, !list_to_set_disj_cons in Heq.
    by apply (inj (disj_union _)) in Heq.
Qed.

Lemma subseteq_size_eq (X Y : gmultiset A) :
  X ⊆ Y → base.size X = base.size Y → X = Y.
Proof.
  intros Hsub Hsize.
  rewrite (gmultiset_disj_union_difference X Y Hsub) in Hsize |- *.
  rewrite gmultiset_size_disj_union in Hsize.
  assert (Y ∖ X = ∅) as -> by (apply gmultiset_size_empty_inv; lia).
  by rewrite (right_id_L ∅ (⊎)).
Qed.

Lemma inter_common_part (E X Y : gmultiset A) :
  (E ⊎ X) ∩ (E ⊎ Y) = E ⊎ (X ∩ Y).
Proof.
  apply gmultiset_eq; intros y.
  rewrite multiplicity_intersection, !multiplicity_disj_union,
    multiplicity_intersection. lia.
Qed.

Lemma inter_empty_iff (l k : list A) :
  (list_to_set_disj l : gmultiset A) ∩ list_to_set_disj k = ∅
  ↔ ∀ x, x ∈ l → x ∉ k.
Proof.
  split.
  - intros Hempty x Hl Hk.
    assert (x ∈ (list_to_set_disj l : gmultiset A) ∩ list_to_set_disj k)
      as Hin.
    { apply gmultiset_elem_of_intersection.
      by rewrite !elem_of_list_to_set_disj. }
    rewrite Hempty in Hin. by apply gmultiset_not_elem_of_empty in Hin.
  - intros Hdisj. apply gmultiset_eq. intros x.
    rewrite multiplicity_intersection, multiplicity_empty.
    destruct (decide (x ∈ l)) as [Hl|Hl].
    + assert (x ∉ (list_to_set_disj k : gmultiset A)) as Hk.
      { rewrite elem_of_list_to_set_disj. by apply Hdisj. }
      apply not_elem_of_multiplicity in Hk. lia.
    + assert (x ∉ (list_to_set_disj l : gmultiset A)) as Hl'.
      { by rewrite elem_of_list_to_set_disj. }
      apply not_elem_of_multiplicity in Hl'. lia.
Qed.

End MultisetOfLists.

Lemma symbols_at_split (c s : list ascii) (ix : list nat) :
  symbols_at c ix = exact_symbols c s ix ⊎ nonexact c s ix.
Proof.
  unfold symbols_at, exact_symbols, nonexact, exact_at.
  induction ix as [|i ix IH].
  { rewrite filter_nil, fmap_nil, list_to_set_disj_nil.
    by rewrite (left_id_L ∅ (⊎)). }
  rewrite fmap_cons, list_to_set_disj_cons, IH, !filter_cons.
  destruct (decide (c !! i = s !! i)) as [Heq|Hne].
  - rewrite decide_False by tauto.
    by rewrite fmap_cons, list_to_set_disj_cons, (assoc_L (⊎)).
  - rewrite decide_True by done.
    rewrite fmap_cons, list_to_set_disj_cons.
    by rewrite !(assoc_L (⊎)), (comm_L (⊎) {[+ c !! i +]}).
Qed.

Lemma exact_symbols_sym (c s : list ascii) (ix : list nat) :
  exact_symbols c s ix = exact_symbols s c ix.
Proof.
  unfold exact_symbols. rewrite <-(exact_at_sym c s). f_equal.
  apply list_fmap_ext. intros k i Hi.
  apply list_elem_of_lookup_2, list_elem_of_filter in Hi as [? _]. done.
Qed.

Lemma size_exact_symbols (c s : list ascii) (ix : list nat) :
  base.size (exact_symbols c s ix) = length (exact_at c s ix).
Proof.
  unfold exact_symbols. by rewrite size_list_to_set_disj, length_fmap.
Qed.

(** The two counts add up to the number of symbols that the two arrays
    share at the positions below [NUM_FIELDS], with multiplicity. *)
Lemma testCode_total_at (c s : list ascii) :
  (testCode c s).1 + (testCode c s).2
  = base.size (symbols_at c (seq 0 NUM_FIELDS)
               ∩ symbols_at s (seq 0 NUM_FIELDS)).
Proof.
  rewrite testCode_closed_form. cbn [fst snd].
  rewrite (symbols_at_split c s), (symbols_at_split s c).
  rewrite (exact_symbols_sym s c), inter_common_part.
  by rewrite gmultiset_size_disj_union, size_exact_symbols.
Qed.

Lemma symbols_at_all (c : list ascii) :
  symbols_at c (seq 0 (length c)) = list_to_set_disj (Some <$> c).
Proof.
  unfold symbols_at. f_equal. apply list_eq. intros i.
  rewrite !list_lookup_fmap.
  destruct (decide (i < length c)) as [Hi|Hi].
  - rewrite lookup_seq_lt by done. cbn.
    destruct (lookup_lt_is_Some_2 c i Hi) as [v Hv]. by rewrite Hv.
  - rewrite lookup_seq_ge by lia. by rewrite lookup_ge_None_2 by lia.
Qed.

Lemma size_inter_Some (c s : list ascii) :
  base.size ((list_to_set_disj (Some <$> c) : gmultiset (option ascii))
             ∩ list_to_set_disj (Some <$> s))
  = base.size (symbols_of c ∩ symbols_of s).
Proof.
  unfold symbols_of. revert s. induction c as [|v c IH]; intros s.
  - rewrite fmap_nil, !list_to_set_disj_nil.
    by rewrite !(left_absorb_L ∅ (∩)), !gmultiset_size_empty.
  - rewrite fmap_cons, !list_to_set_disj_cons.
    destruct (decide (v ∈ s)) as [Hin|Hnotin].
    + apply elem_of_Permutation in Hin as [s' Hs]. rewrite Hs.
      rewrite fmap_cons, !list_to_set_disj_cons, !inter_take_common.
      by rewrite !gmultiset_size_disj_union, !gmultiset_size_singleton, IH.
    + rewrite !inter_skip_absent; [done| |].
      * by rewrite elem_of_list_to_set_disj.
      * rewrite elem_of_list_to_set_disj, list_elem_of_fmap.
        by intros (? & [= <-] & ?).
Qed.

(** The shared-symbol count for two codes of [NUM_FIELDS] symbols. *)
Lemma testCode_total_codes (c s : list ascii) :
  length c = NUM_FIELDS → length s = NUM_FIELDS →
  (testCode c s).1 + (testCode c s).2
  = base.size (symbols_of c ∩ symbols_of s).
Proof.
  intros Hc Hs. rewrite testCode_total_at.
  rewrite <-Hc at 1. rewrite <-Hs at 1.
  by rewrite !symbols_at_all, size_inter_Some.
Qed.

(** X1. For two codes of [NUM_FIELDS] symbols, the exact count is the
    number of positions where they agree, and exact plus partial is the
    number of symbols the two codes share, counted with multiplicity
    (the size of the intersection of their multisets of symbols). *)
Theorem testCode_standard_scoring (c s : list ascii) :
  length c = NUM_FIELDS → length s = NUM_FIELDS →
  (testCode c s).1
  = length (filter (λ i, c !! i = s !! i) (seq 0 NUM_FIELDS))
  ∧ (testCode c s).1 + (testCode c s).2
    = base.size (symbols_of c ∩ symbols_of s).
Proof.
  intros Hc Hs. split.
  - by rewrite testCode_closed_form.
  - by apply testCode_total_codes.
Qed.

Lemma testCode_standard_scoring_witness :
  (testCode (code_of "AABB") (code_of "ABCA")).1
  = length (filter (λ i, code_of "AABB" !! i = code_of "ABCA" !! i)
              (seq 0 NUM_FIELDS))
  ∧ (testCode (code_of "AABB") (code_of "ABCA")).1
    + (testCode (code_of "AABB") (code_of "ABCA")).2
    = base.size (symbols_of (code_of "AABB") ∩ symbols_of (code_of "ABCA")).
Proof.
  apply (testCode_standard_scoring (code_of "AABB") (code_of "ABCA"));
    reflexivity.
Defined.

(** X2. Scoring an array against itself gives [NUM_FIELDS] exact matches
    and no partial match, whatever the array. *)
Theorem testCode_self (a : list ascii) : testCode a a = (NUM_FIELDS, 0).
Proof.
  rewrite testCode_closed_form.
  assert (length (exact_at a a (seq 0 NUM_FIELDS)) = NUM_FIELDS) as Hex.
  { unfold exact_at. rewrite (proj2 (length_filter_all _ _)).
    - apply length_seq.
    - by apply Forall_forall. }
  pose proof (length_exact_nonexact a a (seq 0 NUM_FIELDS)) as Hsum.
  pose proof (size_inter_le_l (nonexact a a (seq 0 NUM_FIELDS))
                (nonexact a a (seq 0 NUM_FIELDS))) as Hle.
  rewrite length_seq in Hsum. f_equal; lia.
Qed.

(** X3. For two codes of [NUM_FIELDS] symbols, the feedback has
    [NUM_FIELDS] pegs in all exactly when one code is a rearrangement of
    the other. *)
Theorem testCode_all_pegs_iff_rearrangement (c s : list ascii) :
  length c = NUM_FIELDS → length s = NUM_FIELDS →
  (testCode c s).1 + (testCode c s).2 = NUM_FIELDS ↔ c ≡ₚ s.
Proof.
  intros Hc Hs. rewrite testCode_total_codes by done.
  unfold symbols_of. split.
  - intros Hsize. apply list_to_set_disj_eq_perm.
    assert (list_to_set_disj c ∩ list_to_set_disj s
            = (list_to_set_disj c : gmultiset ascii)) as Hcs.
    { apply subseteq_size_eq.
      - intros y. rewrite multiplicity_intersection. lia.
      - by rewrite Hsize, size_list_to_set_disj. }
    apply subseteq_size_eq.
    + rewrite <-Hcs. intros y. rewrite multiplicity_intersection. lia.
    + rewrite !size_list_to_set_disj. congruence.
  - intros Hperm. rewrite Hperm.
    assert (∀ X : gmultiset ascii, X ∩ X = X) as ->.
    { intros X. apply gmultiset_eq. intros y.
      rewrite multiplicity_intersection. lia. }
    by rewrite size_list_to_set_disj.
Qed.

Lemma testCode_all_pegs_iff_rearrangement_witness :
  (testCode (code_of "ABCD") (code_of "DCAB")).1
  + (testCode (code_of "ABCD") (code_of "DCAB")).2 = NUM_FIELDS
  ↔ code_of "ABCD" ≡ₚ code_of "DCAB".
Proof.
  apply (testCode_all_pegs_iff_rearrangement
           (code_of "ABCD") (code_of "DCAB")); reflexivity.
Defined.

(** X4. For two codes of [NUM_FIELDS] symbols, the feedback is (0, 0)
    exactly when the codes have no symbol in common. *)
Theorem testCode_no_peg_iff_disjoint (c s : list ascii) :
  length c = NUM_FIELDS → length s = NUM_FIELDS →
  testCode c s = (0, 0) ↔ ∀ sym, sym ∈ c → sym ∉ s.
Proof.
  intros Hc Hs.
  rewrite <-(inter_empty_iff c s), <-gmultiset_size_empty_iff.
  fold (symbols_of c) (symbols_of s).
  rewrite <-testCode_total_codes by done.
  destruct (testCode c s) as [a b]. cbn [fst snd]. split.
  - by intros [= -> ->].
  - intros Hsum. f_equal; lia.
Qed.

Lemma testCode_no_peg_iff_disjoint_witness :
  testCode (code_of "AABB") (code_of "CDEF") = (0, 0)
  ↔ ∀ sym, sym ∈ code_of "AABB" → sym ∉ code_of "CDEF".
Proof.
  apply (testCode_no_peg_iff_disjoint (code_of "AABB") (code_of "CDEF"));
    reflexivity.
Defined.

(** ** Candidate fitness *)

(** The loop of [calculateFitness] from any starting totals: the two
    difference totals only grow, they stay put exactly when every entry is
    consistent with the candidate's code, and the index total grows by the
    sum of the indices. *)
Lemma differences_foldl (this : Combination) (h : list Guess) (k : nat)
    (xd0 yd0 sv0 : Z) :
  ∃ xd yd sv,
    foldl (calculateFitness_step this) (xd0, yd0, sv0)
          (zip (seq k (length h)) h) = (xd, yd, sv)
    ∧ (xd0 ≤ xd)%Z ∧ (yd0 ≤ yd)%Z
    ∧ ((xd = xd0 ∧ yd = yd0) ↔ Forall (consistent_with (code this)) h)
    ∧ (2 * (sv - sv0)
       = Z.of_nat (length h) * (2 * Z.of_nat k + Z.of_nat (length h) - 1))%Z.
Proof.
  revert k xd0 yd0 sv0.
  induction h as [|r h IH]; intros k xd0 yd0 sv0.
  - exists xd0, yd0, sv0. cbn. split_and!; [done|lia|lia| |lia].
    split; [constructor|done].
  - cbn [length seq zip zip_with foldl calculateFitness_step].
    rewrite (testCode_swap (code this) (guess_code r)).
    set (dx := Z.abs (Z.of_nat (testCode (guess_code r) (code this)).1 - x r)).
    set (dy := Z.abs (Z.of_nat (testCode (guess_code r) (code this)).2 - y r)).
    destruct (IH (S k) (xd0 + dx)%Z (yd0 + dy)%Z (sv0 + Z.of_nat k)%Z)
      as (xd & yd & sv & Hfold & Hx & Hy & Hiff & Hsv).
    exists xd, yd, sv. split; [exact Hfold|].
    assert (0 ≤ dx)%Z as Hdx by apply Z.abs_nonneg.
    assert (0 ≤ dy)%Z as Hdy by apply Z.abs_nonneg.
    split_and!; [lia|lia| |lia].
    rewrite Forall_cons. unfold consistent_with at 1. rewrite <-Hiff.
    unfold dx, dy in *. lia.
Qed.

(** X5. After [calculateFitness] a candidate is eligible exactly when it
    already was, or every entry of the history stores the feedback of its
    guess against the candidate's code: the flag is never cleared. *)
Theorem calculateFitness_eligible_iff (this : Combination)
    (prevGuesses : list Guess) :
  eligible (calculateFitness this prevGuesses) = true
  ↔ eligible this = true
    ∨ Forall (consistent_with (code this)) prevGuesses.
Proof.
  destruct (differences_foldl this prevGuesses 0 0 0 0)
    as (xd & yd & sv & Hfold & Hx & Hy & Hiff & _).
  unfold calculateFitness, differences. rewrite Hfold. cbn [eligible].
  rewrite <-Hiff.
  destruct (Z.eqb_spec xd 0), (Z.eqb_spec yd 0); cbn;
    destruct (eligible this); intuition (done || lia).
Qed.

(** X6. The fitness is the two difference totals (the first weighted by
    [FIT_A = 1]) plus [4 n (n - 1)] for a history of [n] entries, the same
    offset for every candidate; so it is at least that offset, and equal
    to it exactly when the candidate is consistent with the whole
    history. *)
Theorem calculateFitness_fitness (this : Combination)
    (prevGuesses : list Guess) :
  let n := Z.of_nat (length prevGuesses) in
  let totals := differences this prevGuesses in
  (fitness (calculateFitness this prevGuesses)
   = totals.1.1 + totals.1.2 + 4 * n * (n - 1))%Z
  ∧ (4 * n * (n - 1) ≤ fitness (calculateFitness this prevGuesses))%Z
  ∧ (fitness (calculateFitness this prevGuesses) = 4 * n * (n - 1)
     ↔ Forall (consistent_with (code this)) prevGuesses)%Z.
Proof.
  intros n totals. subst totals.
  destruct (differences_foldl this prevGuesses 0 0 0 0)
    as (xd & yd & sv & Hfold & Hx & Hy & Hiff & Hsv).
  unfold calculateFitness, differences. rewrite Hfold.
  cbn [fitness fst snd]. rewrite <-Hiff.
  unfold FIT_A, FIT_B, NUM_FIELDS. fold n in Hsv.
  assert (2 * sv = n * (n - 1))%Z as Hsv' by lia.
  split_and!; [lia|lia|lia].
Qed.

(** ** The genetic operators *)



Lemma rng_half_valid : valid_rng rng_half.
Proof. intros n. unfold rng_half. split; by vm_compute. Qed.



Lemma length_without_SYMBOLS (v : ascii) :
  5 ≤ length (Underscore.without SYMBOLS v).
Proof.
  unfold Underscore.without, SYMBOLS.
  rewrite !filter_cons, filter_nil.
  repeat case_decide; simplify_eq; cbn; lia.
Qed.

Lemma sample_one_Some {A} (l : list A) (g : RNG) :
  valid_rng g → l ≠ [] →
  ∃ v, (Underscore.sample_one l g).1 = Some v ∧ v ∈ l.
Proof.
  intros Hg Hl. destruct (Hg 0) as [H0 H1].
  unfold Underscore.sample_one, Underscore.random.
  rewrite !rand_bind_run. cbn [mret Rand_ret fst Math_random].
  replace (Z.of_nat (length l) - 1 + 1)%Z with (Z.of_nat (length l))
    by lia.
  pose proof (floor_scaled_range (g 0) (Z.of_nat (length l)) H0 H1) as Hr.
  assert (0 < length l) by (destruct l; [done|cbn; lia]).
  unfold lookupZ. rewrite (proj2 (Z.ltb_ge _ 0)) by lia.
  destruct (lookup_lt_is_Some_2 l
              (Z.to_nat (Qfloor (g 0 * inject_Z (Z.of_nat (length l))))))
    as [v Hv]; [lia|].
  exists v. split; [done|]. by eapply list_elem_of_lookup_2.
Qed.

Lemma valid_rng_tail (g : RNG) : valid_rng g → valid_rng (Math_random g).2.
Proof. intros Hg n. apply (Hg (S n)). Qed.

(** X8. With draws in [[0, 1)], [mutate] on a code of [NUM_FIELDS]
    symbols overwrites exactly one position with a symbol of the alphabet
    that differs from the one it replaces: the code always changes. *)
Theorem mutate_changes_one_symbol (this : Combination) (g : RNG) :
  valid_rng g → length (code this) = NUM_FIELDS →
  ∃ position old new,
    position < NUM_FIELDS
    ∧ code this !! position = Some old
    ∧ new ∈ SYMBOLS ∧ new ≠ old
    ∧ code (mutate this g).1 = <[position:=new]> (code this)
    ∧ code (mutate this g).1 ≠ code this.
Proof.
  intros Hg Hlen.
  pose proof (mutate_position_in_range g Hg) as Hpos.
  unfold mutate. rewrite !rand_bind_run. cbn [mret Rand_ret fst].
  set (position := Z.to_nat _) in *.
  destruct (code this !! position) as [old|] eqn:Hold; last first.
  { apply lookup_ge_None in Hold. lia. }
  destruct (sample_one_Some (Underscore.without SYMBOLS old)
              (Math_random g).2) as (new & -> & Hnew).
  { by apply valid_rng_tail. }
  { intros Hnil. pose proof (length_without_SYMBOLS old) as H5.
    rewrite Hnil in H5. cbn in H5. lia. }
  apply list_elem_of_filter in Hnew as [Hne Hin].
  exists position, old, new. cbn [with_code code].
  split_and!; [done..|].
  intros Heq. apply (f_equal (λ l, l !! position)) in Heq.
  rewrite list_lookup_insert_eq in Heq by lia. congruence.
Qed.

Lemma mutate_changes_one_symbol_witness :
  ∃ position old new,
    position < NUM_FIELDS
    ∧ code (new_Combination (Str "ABCD")) !! position = Some old
    ∧ new ∈ SYMBOLS ∧ new ≠ old
    ∧ code (mutate (new_Combination (Str "ABCD")) rng_half).1
      = <[position:=new]> (code (new_Combination (Str "ABCD")))
    ∧ code (mutate (new_Combination (Str "ABCD")) rng_half).1
      ≠ code (new_Combination (Str "ABCD")).
Proof.
  apply (mutate_changes_one_symbol (new_Combination (Str "ABCD")) rng_half).
  - apply rng_half_valid.
  - reflexivity.
Defined.

Lemma list_to_set_disj_insert `{Countable A} (l : list A) (i : nat)
    (old new : A) :
  l !! i = Some old →
  ({[+ old +]} ⊎ list_to_set_disj (<[i:=new]> l) : gmultiset A)
  = ({[+ new +]} ⊎ list_to_set_disj l : gmultiset A).
Proof.
  revert i. induction l as [|a l IH]; intros i Hi; [done|].
  destruct i as [|i]; cbn in Hi.
  - injection Hi as ->. cbn [list_insert insert].
    rewrite !list_to_set_disj_cons. apply gmultiset_eq. intros y.
    rewrite !multiplicity_disj_union. lia.
  - change (<[S i:=new]> (a :: l)) with (a :: <[i:=new]> l).
    rewrite !list_to_set_disj_cons.
    apply gmultiset_eq. intros y.
    pose proof (f_equal (multiplicity y) (IH i Hi)) as Hy.
    rewrite !multiplicity_disj_union in Hy.
    rewrite !multiplicity_disj_union. lia.
Qed.

(** Exchanging the values of two positions rearranges the list. *)
Lemma swap_Permutation `{Countable A} (l : list A) (p0 p1 : nat)
    (v0 v1 : A) :
  l !! p0 = Some v0 → l !! p1 = Some v1 →
  <[p1:=v0]> (<[p0:=v1]> l) ≡ₚ l.
Proof.
  intros H0 H1. apply list_to_set_disj_eq_perm.
  assert (<[p0:=v1]> l !! p1 = Some v1) as H1'.
  { destruct (decide (p0 = p1)) as [->|Hne].
    - apply list_lookup_insert_eq. by eapply lookup_lt_Some.
    - by rewrite list_lookup_insert_ne. }
  pose proof (list_to_set_disj_insert _ p1 v1 v0 H1') as Hb.
  pose proof (list_to_set_disj_insert l p0 v0 v1 H0) as Ha.
  apply gmultiset_eq. intros y.
  apply (f_equal (multiplicity y)) in Ha, Hb.
  rewrite !multiplicity_disj_union in Ha, Hb. lia.
Qed.

Lemma testCode_total_rearranged (c c' s : list ascii) :
  c' ≡ₚ c → length c = NUM_FIELDS → length s = NUM_FIELDS →
  (testCode c' s).1 + (testCode c' s).2
  = (testCode c s).1 + (testCode c s).2.
Proof.
  intros Hperm Hc Hs.
  rewrite !testCode_total_codes by (done || by rewrite Hperm).
  unfold symbols_of. by rewrite Hperm.
Qed.

(** X9. For any [_.sample] within its contract, [permutate] on a code of
    [NUM_FIELDS] symbols exchanges the symbols of two distinct positions:
    the result is a rearrangement of the code, and scores the same total
    of pegs against every code. *)
Theorem permutate_swaps_two_positions
    (sample : ∀ A : Type, list A → Z → Rand (list A))
    (this : Combination) (g : RNG) :
  sample_contract sample → length (code this) = NUM_FIELDS →
  ∃ p0 p1 v0 v1,
    p0 ≠ p1 ∧ p0 < NUM_FIELDS ∧ p1 < NUM_FIELDS
    ∧ code this !! p0 = Some v0 ∧ code this !! p1 = Some v1
    ∧ code (permutate sample this g).1
      = <[p1:=v0]> (<[p0:=v1]> (code this))
    ∧ code (permutate sample this g).1 ≡ₚ code this
    ∧ ∀ s, length s = NUM_FIELDS →
        (testCode (code (permutate sample this g).1) s).1
        + (testCode (code (permutate sample this g).1) s).2
        = (testCode (code this) s).1 + (testCode (code this) s).2.
Proof.
  intros Hsample Hlen. unfold permutate.
  rewrite rand_bind_run. cbn [mret Rand_ret fst].
  destruct (Hsample nat (Underscore.range NUM_FIELDS) 2%Z g)
    as [Hsub Hlen2].
  destruct (sample nat (Underscore.range NUM_FIELDS) 2%Z g).1
    as [|p0 [|p1 [|p2 ps]]]; try done.
  assert (NoDup [p0; p1]) as Hnd.
  { eapply submseteq_NoDup_l; [done|apply NoDup_seq]. }
  assert (p0 ≠ p1) as Hne.
  { apply NoDup_cons in Hnd as [Hnotin _]. set_solver. }
  assert (p0 < NUM_FIELDS ∧ p1 < NUM_FIELDS) as [Hp0 Hp1].
  { split.
    - assert (p0 ∈ seq 0 NUM_FIELDS) as Hin
        by (eapply elem_of_submseteq; [|done]; set_solver).
      apply elem_of_seq in Hin. lia.
    - assert (p1 ∈ seq 0 NUM_FIELDS) as Hin
        by (eapply elem_of_submseteq; [|done]; set_solver).
      apply elem_of_seq in Hin. lia. }
  destruct (code this !! p0) as [v0|] eqn:H0; last first.
  { apply lookup_ge_None in H0. lia. }
  destruct (code this !! p1) as [v1|] eqn:H1; last first.
  { apply lookup_ge_None in H1. lia. }
  exists p0, p1, v0, v1. cbn [with_code code].
  pose proof (swap_Permutation (code this) p0 p1 v0 v1 H0 H1) as Hperm.
  split_and!; [done..|].
  intros s Hs. by apply testCode_total_rearranged.
Qed.

Lemma permutate_swaps_two_positions_witness :
  let this := new_Combination (Str "ABCD") in
  ∃ p0 p1 v0 v1,
    p0 ≠ p1 ∧ p0 < NUM_FIELDS ∧ p1 < NUM_FIELDS
    ∧ code this !! p0 = Some v0 ∧ code this !! p1 = Some v1
    ∧ code (permutate Underscore.sample_first this rng_half).1
      = <[p1:=v0]> (<[p0:=v1]> (code this))
    ∧ code (permutate Underscore.sample_first this rng_half).1
      ≡ₚ code this
    ∧ ∀ s, length s = NUM_FIELDS →
        (testCode (code (permutate Underscore.sample_first this
                           rng_half).1) s).1
        + (testCode (code (permutate Underscore.sample_first this
                             rng_half).1) s).2
        = (testCode (code this) s).1 + (testCode (code this) s).2.
Proof.
  apply (permutate_swaps_two_positions Underscore.sample_first
           (new_Combination (Str "ABCD")) rng_half).
  - apply sample_first_contract.
  - reflexivity.
Defined.

(** X10. [inverse] reverses the code: applied twice it gives the candidate
    back, and on a code of [NUM_FIELDS] symbols it keeps the total of pegs
    scored against every code. *)
Theorem inverse_involutive (this : Combination) :
  inverse (inverse this) = this
  ∧ (length (code this) = NUM_FIELDS →
     ∀ s, length s = NUM_FIELDS →
       (testCode (code (inverse this)) s).1
       + (testCode (code (inverse this)) s).2
       = (testCode (code this) s).1 + (testCode (code this) s).2).
Proof.
  split.
  - destruct this as [c f e]. unfold inverse, with_code.
    cbn [code fitness eligible]. by rewrite reverse_involutive.
  - intros Hlen s Hs. apply testCode_total_rearranged; [|done..].
    cbn. apply reverse_Permutation.
Qed.

(** ** The code space *)

(** X11. For distinct symbols, [variations] leaves [results] in place and
    appends [length symbols ^ depth] strings without repetition: exactly
    the strings of [variation] followed by [depth] symbols of
    [symbols]. *)
Theorem variations_enumerates (symbols : list ascii) (depth : nat)
    (variation : list ascii) (results : list string) :
  NoDup symbols →
  ∃ new,
    variations symbols depth variation results = results ++ new
    ∧ NoDup new
    ∧ length new = length symbols ^ depth
    ∧ ∀ s, s ∈ new
           ↔ ∃ w, s = join (variation ++ w) ∧ length w = depth
                  ∧ Forall (λ sym, sym ∈ symbols) w.
Proof.
  intros Hnd. rewrite variations_words.
  eexists. split; [reflexivity|]. split_and!.
  - apply NoDup_fmap_2; [|by apply NoDup_words].
    intros w1 w2 Heq%join_inj. by apply app_inv_head in Heq.
  - by rewrite length_fmap, length_words.
  - intros s. rewrite list_elem_of_fmap. split.
    + intros (w & -> & Hw%elem_of_words). by exists w.
    + intros (w & -> & Hw). exists w. split; [done|].
      by apply elem_of_words.
Qed.

Lemma variations_enumerates_witness :
  ∃ new,
    variations SYMBOLS 2 (code_of "AB") ["xx"%string] = ["xx"%string] ++ new
    ∧ NoDup new
    ∧ length new = length SYMBOLS ^ 2
    ∧ ∀ s, s ∈ new
           ↔ ∃ w, s = join (code_of "AB" ++ w) ∧ length w = 2
                  ∧ Forall (λ sym, sym ∈ SYMBOLS) w.
Proof.
  apply (variations_enumerates SYMBOLS 2 (code_of "AB") ["xx"%string]).
  apply (bool_decide_unpack (NoDup SYMBOLS)). by vm_compute.
Defined.

(** ** The population engine *)

Lemma fresh_new_Combination (arg : CodeArg) : fresh (new_Combination arg).
Proof. done. Qed.

Lemma Forall_fresh_fmap (l : list string) :
  Forall fresh ((λ e, new_Combination (Str e)) <$> l).
Proof. apply Forall_fmap, Forall_forall. intros e _. done. Qed.

(** X12. For any [_.sample] within its contract, [init] builds
    [min(size, 1296)] members (none when [size] is negative), all fresh,
    with pairwise distinct codes of the code space. *)
Theorem init_builds_population
    (sample : ∀ A : Type, list A → Z → Rand (list A)) (n : Z) (g : RNG) :
  sample_contract sample →
  let this := (init sample n g).1 in
  size this = n
  ∧ length (members this) = Z.to_nat (Z.min n 1296)
  ∧ NoDup (code <$> members this)
  ∧ ∀ m, m ∈ members this → fresh m ∧ getCodeString m ∈ allCodes.
Proof.
  intros Hsample this.
  destruct (init_population sample Hsample n g)
    as (Hsize & Hlen & Hnd & Hwf).
  fold this in Hsize, Hlen, Hnd, Hwf. rewrite length_allCodes in Hlen.
  split_and!; [done..|].
  intros m Hm. split.
  - unfold this, init in Hm. rewrite rand_bind_run in Hm.
    cbn [mret Rand_ret fst members] in Hm.
    by apply list_elem_of_fmap in Hm as (e & -> & _).
  - rewrite Forall_forall in Hwf. apply elem_of_allCodes.
    unfold getCodeString. rewrite code_of_join. by apply Hwf.
Qed.

Lemma init_builds_population_witness :
  let this := (init Underscore.sample_first POPULATION_SIZE rng_half).1 in
  size this = POPULATION_SIZE
  ∧ length (members this) = Z.to_nat (Z.min POPULATION_SIZE 1296)
  ∧ NoDup (code <$> members this)
  ∧ ∀ m, m ∈ members this → fresh m ∧ getCodeString m ∈ allCodes.
Proof.
  apply (init_builds_population Underscore.sample_first POPULATION_SIZE
           rng_half).
  apply sample_first_contract.
Defined.

(** X13. A call of [generation] that passes the test at its head on a
    population of fewer than two members raises the [TypeError]:
    [this.members[lastIndex]] or [this.members[lastIndex - 1]] is
    [undefined]. *)
Theorem generation_throws_below_two_members
    (sample : ∀ A : Type, list A → Z → Rand (list A))
    (this : Population) (prevGuesses : list Guess) (eiSet : list string)
    (maxGen : Z) (g : RNG) :
  length (members this) < 2 →
  halts prevGuesses eiSet maxGen = false →
  (generation sample this prevGuesses eiSet maxGen g).1 = Threw.
Proof.
  intros Hlen Hhalt. unfold generation. rewrite Hhalt.
  pose proof (length_evaluate prevGuesses (members this) eiSet) as Hev.
  destruct (evaluate prevGuesses (members this) eiSet) as [ms eiSet'].
  cbn [fst] in Hev. rewrite rand_bind_run.
  assert ((breed sample ms g).1 = None) as ->; [|done].
  unfold breed. pose proof (length_sort ms) as Hsort.
  set (sorted := sort ms) in *. unfold lookupZ.
  destruct sorted as [|m0 [|m1 rest]]; cbn in *; [done|done|lia].
Qed.

Lemma generation_throws_below_two_members_witness :
  (generation Underscore.sample_first
     (init Underscore.sample_first 1 rng_half).1 first_history []
     MAXGEN rng_half).1 = Threw.
Proof.
  apply generation_throws_below_two_members.
  - destruct (init_population Underscore.sample_first
                sample_first_contract 1 rng_half) as (_ & -> & _).
    rewrite length_allCodes. apply (bool_decide_unpack (_ < 2)).
    by vm_compute.
  - reflexivity.
Defined.

Lemma code_calculateFitness (m : Combination) (prevGuesses : list Guess) :
  code (calculateFitness m prevGuesses) = code m.
Proof.
  unfold calculateFitness.
  by destruct (differences m prevGuesses) as [[? ?] ?].
Qed.

Lemma eligible_fresh_iff (m : Combination) (prevGuesses : list Guess) :
  fresh m →
  eligible (calculateFitness m prevGuesses) = true
  ↔ Forall (consistent_with (code m)) prevGuesses.
Proof.
  intros [_ Hel].
  destruct (differences_foldl m prevGuesses 0 0 0 0)
    as (xd & yd & sv & Hfold & Hx & Hy & Hiff & _).
  unfold calculateFitness, differences. rewrite Hfold. cbn [eligible].
  rewrite <-Hiff, Hel.
  destruct (Z.eqb_spec xd 0), (Z.eqb_spec yd 0); cbn;
    intuition (done || lia).
Qed.

(** The first loop of [generation]: the eligible set only grows at its
    end, gains no repetition, and gains exactly the codes of the members
    found eligible. *)
Lemma evaluate_foldl_eiSet (prevGuesses : list Guess)
    (ms seen : list Combination) (eiSet : list string) :
  ∃ new,
    (foldl (evaluate_step prevGuesses) (seen, eiSet) ms).2 = eiSet ++ new
    ∧ (NoDup eiSet → NoDup (eiSet ++ new))
    ∧ ∀ e, e ∈ eiSet ++ new
           ↔ e ∈ eiSet
             ∨ ∃ m, m ∈ ms ∧ getCodeString m = e
                    ∧ eligible (calculateFitness m prevGuesses) = true.
Proof.
  revert seen eiSet. induction ms as [|m ms IH]; intros seen eiSet.
  - exists []. rewrite app_nil_r. split_and!; [done..|].
    intros e. split; [by left|]. intros [?|(m & Hm & _)]; [done|].
    by apply elem_of_nil in Hm.
  - cbn [foldl evaluate_step].
    set (eiSet1 := if eligible (calculateFitness m prevGuesses) then _
                   else eiSet).
    destruct (IH (seen ++ [calculateFitness m prevGuesses]) eiSet1)
      as (new & Hfold & Hnd & Hin).
    assert (getCodeString (calculateFitness m prevGuesses)
            = getCodeString m) as Hcode.
    { unfold getCodeString. by rewrite code_calculateFitness. }
    assert (∃ add, eiSet1 = eiSet ++ add
                   ∧ (NoDup eiSet → NoDup eiSet1)
                   ∧ ∀ e, e ∈ eiSet1
                          ↔ e ∈ eiSet
                            ∨ (getCodeString m = e
                               ∧ eligible (calculateFitness m prevGuesses)
                                 = true))
      as (add & Hadd & Hnd1 & Hin1).
    { unfold eiSet1. rewrite Hcode.
      destruct (eligible (calculateFitness m prevGuesses)).
      - case_decide as Hdec.
        + exists []. rewrite app_nil_r. split_and!; [done..|].
          intros e. split; [by left|]. by intros [?|[<- _]].
        + exists [getCodeString m]. split_and!; [done| |].
          * intros Hnd0. apply NoDup_app. split_and!; [done| |].
            -- by intros e He ->%list_elem_of_singleton.
            -- apply NoDup_singleton.
          * intros e. rewrite elem_of_app, list_elem_of_singleton.
            split; [intros [?| ->]; [by left|by right]|].
            intros [?|[<- _]]; [by left|by right].
      - exists []. rewrite app_nil_r. split_and!; [done..|].
        intros e. split; [by left|]. by intros [?|[_ ?]]. }
    clearbody eiSet1. subst eiSet1.
    exists (add ++ new). rewrite Hfold, <-app_assoc.
    rewrite <-app_assoc in Hnd, Hin.
    split_and!; [done|by intros ?; apply Hnd, Hnd1|].
    intros e. rewrite Hin, Hin1. split.
    + intros [[?|[<- ?]]|(m' & Hm' & ? & ?)]; [by left| |].
      * right. exists m. split_and!; [by left|done..].
      * right. exists m'. split_and!; [by right|done..].
    + intros [?|(m' & [-> |Hm']%elem_of_cons & ? & ?)].
      * by left; left.
      * by left; right.
      * right. by exists m'.
Qed.

(** X14. A generation step on fresh members (at least two, past the test
    at the head) hands on the eligible set it was given, extended at its
    end, still without repetition, and holding besides the old entries
    exactly the code strings of the members that are consistent with the
    whole history. *)
Theorem generation_collects_consistent_codes
    (sample : ∀ A : Type, list A → Z → Rand (list A))
    (this : Population) (prevGuesses : list Guess) (eiSet : list string)
    (maxGen : Z) (g : RNG) :
  halts prevGuesses eiSet maxGen = false →
  2 ≤ length (members this) →
  Forall fresh (members this) →
  NoDup eiSet →
  ∃ this' new g',
    generation sample this prevGuesses eiSet maxGen g
    = (Scheduled this' (eiSet ++ new) (maxGen - 1), g')
    ∧ NoDup (eiSet ++ new)
    ∧ ∀ e, e ∈ eiSet ++ new
           ↔ e ∈ eiSet
             ∨ ∃ m, m ∈ members this ∧ getCodeString m = e
                    ∧ Forall (consistent_with (code m)) prevGuesses.
Proof.
  intros Hhalt Hlen Hfresh Hnd.
  destruct (generation_scheduled sample this prevGuesses eiSet maxGen g
              Hhalt Hlen) as (ms & g1 & _ & _ & Hgen).
  destruct (evaluate_foldl_eiSet prevGuesses (members this) [] eiSet)
    as (new & Hev & Hnd' & Hin).
  fold (evaluate prevGuesses (members this) eiSet) in Hev.
  rewrite Hev in Hgen.
  eexists _, new, _. split; [exact Hgen|]. split; [by apply Hnd'|].
  intros e. rewrite Hin. rewrite Forall_forall in Hfresh.
  split; (intros [?|(m & Hm & Hcode & Hel)]; [by left|right]);
    exists m; split_and!; try done;
    by apply (eligible_fresh_iff m prevGuesses (Hfresh m Hm)).
Qed.

Lemma generation_collects_consistent_codes_witness :
  ∃ this' new g',
    generation Underscore.sample_first small_population first_history []
      MAXGEN rng_half
    = (Scheduled this' ([] ++ new) (MAXGEN - 1), g')
    ∧ NoDup ([] ++ new)
    ∧ ∀ e, e ∈ [] ++ new
           ↔ e ∈ []
             ∨ ∃ m, m ∈ members small_population ∧ getCodeString m = e
                    ∧ Forall (consistent_with (code m)) first_history.
Proof.
  apply (generation_collects_consistent_codes Underscore.sample_first
           small_population first_history [] MAXGEN rng_half).
  - reflexivity.
  - cbn. lia.
  - apply Forall_fresh_fmap.
  - constructor.
Defined.

Lemma insert_by_fitness_Permutation m sorted :
  insert_by_fitness m sorted ≡ₚ m :: sorted.
Proof.
  induction sorted as [|m' rest IH]; cbn; [done|].
  case_match; [done|]. rewrite IH. apply perm_swap.
Qed.

Lemma sort_Permutation ms : sort ms ≡ₚ ms.
Proof.
  induction ms as [|m ms IH]; cbn; [done|].
  by rewrite insert_by_fitness_Permutation, IH.
Qed.

Lemma insert_by_fitness_sorted m sorted :
  StronglySorted fitness_le sorted →
  StronglySorted fitness_le (insert_by_fitness m sorted).
Proof.
  induction 1 as [|m' rest Hrest IH Hall]; cbn.
  - apply SSorted_cons; [constructor|constructor].
  - destruct (Z.leb_spec (fitness m) (fitness m')) as [Hle|Hgt].
    + apply SSorted_cons; [by apply SSorted_cons|].
      constructor; [done|].
      eapply Forall_impl; [exact Hall|].
      unfold fitness_le. intros; lia.
    + apply SSorted_cons; [done|].
      rewrite insert_by_fitness_Permutation.
      constructor; [unfold fitness_le; lia|done].
Qed.

Lemma sort_sorted ms : StronglySorted fitness_le (sort ms).
Proof.
  induction ms as [|m ms IH]; cbn; [constructor|].
  by apply insert_by_fitness_sorted.
Qed.

Lemma last_two {A} (l : list A) :
  2 ≤ length l → ∃ front a b, l = front ++ [a; b].
Proof.
  intros Hlen.
  destruct l as [|b l _] using rev_ind; [cbn in Hlen; lia|].
  destruct l as [|a l _] using rev_ind.
  { cbn in Hlen. lia. }
  exists l, a, b. by rewrite <-app_assoc.
Qed.

(** X15. [generation] crosses the two members of highest fitness, the
    last two of the sorted population, and the two children overwrite
    its first two slots, where the two members of lowest fitness are. *)
Theorem breed_crosses_two_highest
    (sample : ∀ A : Type, list A → Z → Rand (list A))
    (ms : list Combination) (g : RNG) :
  2 ≤ length ms →
  ∃ low0 low1 rest front other last,
    sort ms ≡ₚ ms
    ∧ sort ms = low0 :: low1 :: rest
    ∧ sort ms = front ++ [other; last]
    ∧ (∀ m, m ∈ rest → fitness_le low0 m ∧ fitness_le low1 m)
    ∧ (∀ m, m ∈ front → fitness_le m other)
    ∧ fitness_le other last
    ∧ breed sample ms g
      = (nextGeneration ← crossover last other;
         c0 ← vary sample nextGeneration.1;
         c1 ← vary sample nextGeneration.2;
         mret (Some (c0 :: c1 :: rest))) g.
Proof.
  intros Hlen.
  pose proof (sort_sorted ms) as Hsorted.
  pose proof (length_sort ms) as Hlsort.
  destruct (last_two (sort ms)) as (front & other & last & Hend); [lia|].
  destruct (sort ms) as [|low0 [|low1 rest]] eqn:Hstart;
    [cbn in Hlsort; lia..|].
  exists low0, low1, rest, front, other, last.
  split; [by rewrite <-Hstart; apply sort_Permutation|].
  split; [done|]. split; [done|].
  split_and!.
  - intros m Hm.
    apply StronglySorted_cons in Hsorted as [Hall0 Hsorted].
    apply StronglySorted_cons in Hsorted as [Hall1 _].
    apply Forall_cons in Hall0 as [_ Hall0].
    rewrite Forall_forall in Hall0, Hall1. auto.
  - intros m Hm. rewrite Hend in Hsorted.
    eapply StronglySorted_app_1_elem_of; [done..|by left].
  - rewrite Hend in Hsorted.
    apply StronglySorted_app in Hsorted as (_ & _ & Htail).
    apply StronglySorted_cons in Htail as [Hall _].
    by apply Forall_cons in Hall as [? _].
  - unfold breed. rewrite Hstart.
    assert (lookupZ (low0 :: low1 :: rest)
              (Z.of_nat (length (low0 :: low1 :: rest)) - 1) = Some last
            ∧ lookupZ (low0 :: low1 :: rest)
                (Z.of_nat (length (low0 :: low1 :: rest)) - 1 - 1)
              = Some other) as [-> ->]; [|done].
    rewrite Hend. unfold lookupZ.
    rewrite !(proj2 (Z.ltb_ge _ 0)) by (rewrite length_app; cbn; lia).
    rewrite length_app. cbn [length]. split.
    + rewrite lookup_app_r by lia.
      by replace (Z.to_nat _ - length front) with 1 by lia.
    + rewrite lookup_app_r by lia.
      by replace (Z.to_nat _ - length front) with 0 by lia.
Qed.

Lemma breed_crosses_two_highest_witness :
  ∃ low0 low1 rest front other last,
    sort (members small_population) ≡ₚ members small_population
    ∧ sort (members small_population) = low0 :: low1 :: rest
    ∧ sort (members small_population) = front ++ [other; last]
    ∧ (∀ m, m ∈ rest → fitness_le low0 m ∧ fitness_le low1 m)
    ∧ (∀ m, m ∈ front → fitness_le m other)
    ∧ fitness_le other last
    ∧ breed Underscore.sample_first (members small_population) rng_half
      = (nextGeneration ← crossover last other;
         c0 ← vary Underscore.sample_first nextGeneration.1;
         c1 ← vary Underscore.sample_first nextGeneration.2;
         mret (Some (c0 :: c1 :: rest))) rng_half.
Proof.
  apply (breed_crosses_two_highest Underscore.sample_first
           (members small_population) rng_half).
  cbn. lia.
Defined.

(** ** The chain of calls of a round *)

Section RoundFacts.

Variable sample : ∀ A : Type, list A → Z → Rand (list A).
Hypothesis sample_spec : sample_contract sample.

Lemma init_round_ready (n : Z) (g : RNG) :
  (2 ≤ n ≤ Z.of_nat (length allCodes))%Z →
  round_ready (init sample n g).1.
Proof.
  intros Hn. split; [by apply init_population_ok|].
  unfold init. rewrite rand_bind_run. cbn [mret Rand_ret fst members].
  apply Forall_fresh_fmap.
Qed.

(** One call that passes the test at its head, on a population ready for
    a round. *)
Lemma generation_round_step (this : Population) (prevGuesses : list Guess)
    (eiSet : list string) (maxGen : Z) (g : RNG) :
  round_ready this →
  halts prevGuesses eiSet maxGen = false →
  ∃ this' new g',
    generation sample this prevGuesses eiSet maxGen g
    = (Scheduled this' (eiSet ++ new) (maxGen - 1), g')
    ∧ round_ready this'
    ∧ (NoDup eiSet →
       NoDup (eiSet ++ new) ∧ ∀ e, e ∈ new → sound_entry prevGuesses e).
Proof.
  intros [Hok Hfresh] Hhalt.
  pose proof Hok as (Hsize & Hlen & _ & Hwf).
  destruct (generation_scheduled sample this prevGuesses eiSet maxGen g
              Hhalt) as (ms & g1 & _ & _ & Hgen); [lia|].
  destruct (evaluate_foldl_eiSet prevGuesses (members this) [] eiSet)
    as (new & Hev & Hnd' & Hin).
  fold (evaluate prevGuesses (members this) eiSet) in Hev.
  rewrite Hev in Hgen.
  eexists _, new, _. split; [exact Hgen|]. split; [|intros Hnd; split].
  - split.
    + apply (arms_population_ok sample sample_spec prevGuesses
               {| call_this := this; call_eiSet := eiSet;
                  call_maxGen := maxGen; call_rng := g |}
               {| call_this :=
                    {| members := (refill sample (size this) ms g1).1;
                       size := size this |};
                  call_eiSet := eiSet ++ new;
                  call_maxGen := maxGen - 1;
                  call_rng := (refill sample (size this) ms g1).2 |});
        [exact Hgen|done].
    + cbn [members].
      destruct (refill_shape sample sample_spec (size this) ms g1)
        as (newMembers & _ & -> & _).
      apply Forall_fresh_fmap.
  - by apply Hnd'.
  - intros e He.
    assert (e ∉ eiSet) as Hnotin.
    { specialize (Hnd' Hnd). apply NoDup_app in Hnd' as (_ & Hdisj & _).
      intros Hei. by apply (Hdisj e Hei). }
    destruct (proj1 (Hin e)) as [?|(m & Hm & <- & Hel)];
      [apply elem_of_app; by right|done|].
    rewrite Forall_forall in Hfresh, Hwf.
    apply (eligible_fresh_iff m prevGuesses (Hfresh m Hm)) in Hel.
    unfold sound_entry, getCodeString. rewrite code_of_join.
    split; [by apply Hwf|done].
Qed.

(** What holds when the chain of calls of a round stops. *)
Lemma run_invariant (fuel : nat) (this : Population)
    (prevGuesses : list Guess) (eiSet : list string) (maxGen : Z)
    (g : RNG) :
  round_ready this → NoDup eiSet →
  (∀ e, e ∈ eiSet → sound_entry prevGuesses e) →
  match run sample fuel this prevGuesses eiSet maxGen g with
  | Done this' eiSet' =>
      round_ready this' ∧ NoDup eiSet'
      ∧ (∀ e, e ∈ eiSet' → sound_entry prevGuesses e)
  | Crashed => False
  | Pending => True
  end.
Proof.
  revert this eiSet maxGen g.
  induction fuel as [|fuel IH]; intros this eiSet maxGen g Hready Hnd Hei;
    [done|].
  cbn [run].
  destruct (halts prevGuesses eiSet maxGen) eqn:Hhalt.
  - unfold generation. rewrite Hhalt. done.
  - destruct (generation_round_step this prevGuesses eiSet maxGen g
                Hready Hhalt)
      as (this' & new & g' & -> & Hready' & Hnew).
    destruct (Hnew Hnd) as [Hnd' Hsound].
    apply IH; [done..|].
    intros e [?|?]%elem_of_app; auto.
Qed.

End RoundFacts.

Lemma chooseNextGuess_elem_of (eligible : list string) :
  eligible ≠ [] →
  ∃ e, e ∈ eligible ∧ chooseNextGuess eligible = Some (code_of e).
Proof.
  intros Hne.
  destruct (chooseNextGuess_loop eligible (eligible !! 0) eligible)
    as (mx & ng & Hfold & _ & Hcase).
  unfold chooseNextGuess. rewrite Hfold.
  destruct Hcase as [[_ ->]|(_ & i & e & Hi & -> & _)].
  - destruct eligible as [|e rest]; [done|]. exists e. split; [by left|done].
  - exists e. split; [by eapply list_elem_of_lookup_2|done].
Qed.

Lemma run_Done_halted (sample : ∀ A : Type, list A → Z → Rand (list A))
    (fuel : nat) (this : Population) (prevGuesses : list Guess)
    (eiSet : list string) (maxGen : Z) (g : RNG) this' eiSet' :
  run sample fuel this prevGuesses eiSet maxGen g = Done this' eiSet' →
  ∃ n, halts prevGuesses eiSet' n = true.
Proof.
  revert this eiSet maxGen g.
  induction fuel as [|fuel IH]; intros this eiSet maxGen g; [done|].
  cbn [run].
  destruct (halts prevGuesses eiSet maxGen) eqn:Hhalt.
  - unfold generation. rewrite Hhalt. cbn. intros [= _ <-]. eauto.
  - destruct (generation sample this prevGuesses eiSet maxGen g)
      as [[|this1 eiSet1 n1|] g1] eqn:Hgen; [|by apply IH|done].
    unfold generation in Hgen. rewrite Hhalt in Hgen.
    destruct (evaluate prevGuesses (members this) eiSet) as [ms ei].
    rewrite rand_bind_run in Hgen.
    destruct (breed sample ms g).1; [|done].
    by rewrite rand_bind_run in Hgen.
Qed.

Lemma halts_short_history (prevGuesses : list Guess) (eiSet : list string)
    (maxGen : Z) :
  length prevGuesses ≤ 1 → halts prevGuesses eiSet maxGen = false →
  (0 < maxGen)%Z.
Proof.
  unfold halts. intros Hlen.
  destruct (Z.leb_spec maxGen 0) as [Hle|Hgt]; [|done].
  cbn [orb]. destruct (Nat.ltb_spec 1 (length prevGuesses)); [lia|done].
Qed.

Lemma halts_empty_long_history (prevGuesses : list Guess) (maxGen : Z) :
  1 < length prevGuesses → halts prevGuesses [] maxGen = false.
Proof.
  unfold halts. intros Hlen.
  destruct (Nat.ltb_spec 1 (length prevGuesses)); [|lia].
  by destruct (_ || _).
Qed.

Lemma first_population_ready : round_ready first_population.
Proof.
  apply init_round_ready; [apply sample_first_contract|].
  rewrite length_allCodes. unfold POPULATION_SIZE. lia.
Qed.

(** X16. With a history of at most one guess, and any [_.sample] within
    its contract, the chain of calls that [generation] arms through
    [setTimeout] reaches [callback()] after at most [maxGen + 1] calls
    (one call when [maxGen] is not positive), without raising, and leaves
    a population that satisfies the invariant. *)
Theorem round_reaches_callback
    (sample : ∀ A : Type, list A → Z → Rand (list A))
    (fuel : nat) (this : Population) (prevGuesses : list Guess)
    (eiSet : list string) (maxGen : Z) (g : RNG) :
  sample_contract sample → population_ok this →
  length prevGuesses ≤ 1 → Z.to_nat maxGen < fuel →
  ∃ this' eiSet',
    run sample fuel this prevGuesses eiSet maxGen g = Done this' eiSet'
    ∧ population_ok this'.
Proof.
  intros Hs Hok Hlen. revert this eiSet maxGen g Hok.
  induction fuel as [|fuel IH]; intros this eiSet maxGen g Hok Hfuel; [lia|].
  cbn [run].
  destruct (halts prevGuesses eiSet maxGen) eqn:Hhalt.
  - unfold generation. rewrite Hhalt. by exists this, eiSet.
  - pose proof (halts_short_history _ _ _ Hlen Hhalt) as Hpos.
    pose proof Hok as (Hsize & Hmem & _).
    destruct (generation_scheduled sample this prevGuesses eiSet maxGen g
                Hhalt) as (ms & g1 & _ & _ & Hgen); [lia|].
    rewrite Hgen. apply IH; [|lia].
    apply (arms_population_ok sample Hs prevGuesses
             {| call_this := this; call_eiSet := eiSet;
                call_maxGen := maxGen; call_rng := g |}
             {| call_this :=
                  {| members := (refill sample (size this) ms g1).1;
                     size := size this |};
                call_eiSet := (evaluate prevGuesses (members this) eiSet).2;
                call_maxGen := maxGen - 1;
                call_rng := (refill sample (size this) ms g1).2 |});
      [exact Hgen|done].
Qed.

Lemma round_reaches_callback_witness :
  ∃ this' eiSet',
    run Underscore.sample_first 251 first_population first_history []
      MAXGEN rng_half
    = Done this' eiSet'
    ∧ population_ok this'.
Proof.
  apply round_reaches_callback.
  - apply sample_first_contract.
  - apply first_population_ready.
  - cbn. lia.
  - unfold MAXGEN. lia.
Defined.

(** X17. With a history of more than one guess that no code of the code
    space is consistent with (feedback that contradicts itself), a round
    started on an empty eligible set never reaches [callback()]: however
    many calls are followed, [maxGen] runs below zero and the next call
    stays armed. *)
Theorem inconsistent_history_never_halts
    (sample : ∀ A : Type, list A → Z → Rand (list A))
    (this : Population) (prevGuesses : list Guess) :
  sample_contract sample → round_ready this →
  1 < length prevGuesses →
  (∀ c, is_code c → ¬ Forall (consistent_with c) prevGuesses) →
  ∀ (fuel : nat) (maxGen : Z) (g : RNG),
    run sample fuel this prevGuesses [] maxGen g = Pending.
Proof.
  intros Hs Hready Hlen Hnone fuel. revert this Hready.
  induction fuel as [|fuel IH]; intros this Hready maxGen g; [done|].
  cbn [run].
  pose proof (halts_empty_long_history prevGuesses maxGen Hlen) as Hhalt.
  destruct (generation_round_step sample Hs this prevGuesses [] maxGen g
              Hready Hhalt)
    as (this' & new & g' & -> & Hready' & Hnew).
  destruct (Hnew (NoDup_nil_2)) as [_ Hsound].
  destruct new as [|e new]; [by apply IH|].
  destruct (Hsound e) as [Hcode Hcons]; [by left|].
  by destruct (Hnone _ Hcode).
Qed.

Lemma inconsistent_history_never_halts_witness :
  run Underscore.sample_first 3 first_population
    [ {| guess_code := code_of "AAAA"; x := 0; y := 0 |};
      {| guess_code := code_of "AAAA"; x := 4; y := 0 |} ]
    [] 1 rng_half
  = Pending.
Proof.
  apply inconsistent_history_never_halts.
  - apply sample_first_contract.
  - apply first_population_ready.
  - cbn. lia.
  - intros c _ Hall.
    apply Forall_cons in Hall as [[H0 _] Hall].
    apply Forall_cons in Hall as [[H4 _] _].
    cbn [x guess_code] in H0, H4. lia.
Defined.

(** X18. A round started on an empty eligible set, on a population that
    satisfies the invariant and holds fresh members, never raises; when it
    reaches [callback()] the population is again such a population and
    either the eligible set is empty ("Lose!"), or [chooseNextGuess]
    returns a code of the code space that every entry of the history is
    consistent with, so a guess that did not win is never played again. *)
Theorem next_guess_consistent_with_history
    (sample : ∀ A : Type, list A → Z → Rand (list A))
    (fuel : nat) (this : Population) (prevGuesses : list Guess)
    (maxGen : Z) (g : RNG) :
  sample_contract sample → round_ready this →
  match run sample fuel this prevGuesses [] maxGen g with
  | Done this' eligibleSet =>
      round_ready this'
      ∧ match callback eligibleSet with
        | NextGuess aiGuess =>
            is_code aiGuess
            ∧ Forall (consistent_with aiGuess) prevGuesses
            ∧ ∀ r, r ∈ prevGuesses → x r ≠ Z.of_nat NUM_FIELDS →
                   guess_code r ≠ aiGuess
        | Lose => eligibleSet = []
        | CallbackThrew => False
        end
  | Crashed => False
  | Pending => True
  end.
Proof.
  intros Hs Hready.
  pose proof (run_invariant sample Hs fuel this prevGuesses [] maxGen g
                Hready (NoDup_nil_2)) as Hinv.
  destruct (run sample fuel this prevGuesses [] maxGen g)
    as [this' eligibleSet| |]; [|apply Hinv; by intros e ?%elem_of_nil|done].
  destruct Hinv as (Hready' & _ & Hsound);
    [by intros e ?%elem_of_nil|].
  split; [done|]. unfold callback.
  destruct eligibleSet as [|e0 rest]; [done|].
  destruct (chooseNextGuess_elem_of (e0 :: rest)) as (e & He & ->); [done|].
  cbn [length Nat.ltb Nat.leb].
  destruct (Hsound e He) as [Hcode Hcons].
  split_and!; [done..|].
  intros r Hr Hx Heq.
  rewrite Forall_forall in Hcons. destruct (Hcons r Hr) as [Hxr _].
  rewrite Heq in Hxr. apply Hx. rewrite Hxr. f_equal.
  by apply exact_all_iff.
Qed.

Lemma next_guess_consistent_with_history_witness :
  match run Underscore.sample_first 251 first_population first_history []
          MAXGEN rng_half with
  | Done this' eligibleSet =>
      round_ready this'
      ∧ match callback eligibleSet with
        | NextGuess aiGuess =>
            is_code aiGuess
            ∧ Forall (consistent_with aiGuess) first_history
            ∧ ∀ r, r ∈ first_history → x r ≠ Z.of_nat NUM_FIELDS →
                   guess_code r ≠ aiGuess
        | Lose => eligibleSet = []
        | CallbackThrew => False
        end
  | Crashed => False
  | Pending => True
  end.
Proof.
  apply next_guess_consistent_with_history.
  - apply sample_first_contract.
  - apply first_population_ready.
Defined.

(** X19. When the chain of calls reaches [callback()], the eligible set
    can be empty ("Lose!") only with a history of at most one guess: with
    two guesses or more the AI is always handed at least one eligible
    code, and [chooseNextGuess] is never called on an empty array. *)
Theorem lose_needs_short_history
    (sample : ∀ A : Type, list A → Z → Rand (list A))
    (fuel : nat) (this : Population) (prevGuesses : list Guess)
    (eiSet : list string) (maxGen : Z) (g : RNG)
    (this' : Population) (eligibleSet : list string) :
  run sample fuel this prevGuesses eiSet maxGen g = Done this' eligibleSet →
  (callback eligibleSet = Lose
   → eligibleSet = [] ∧ length prevGuesses ≤ 1)
  ∧ (1 < length prevGuesses
     → ∃ aiGuess e, e ∈ eligibleSet ∧ aiGuess = code_of e
                    ∧ callback eligibleSet = NextGuess aiGuess).
Proof.
  intros (n & Hhalt)%run_Done_halted.
  assert (eligibleSet = [] → length prevGuesses ≤ 1) as Hshort.
  { intros ->. unfold halts in Hhalt.
    destruct (Nat.ltb_spec 1 (length prevGuesses)); [|lia].
    by destruct (_ || _). }
  split.
  - unfold callback. destruct eligibleSet as [|e0 rest]; [auto|].
    cbn [length Nat.ltb Nat.leb]. by destruct (chooseNextGuess _).
  - intros Hlen. destruct eligibleSet as [|e0 rest].
    { specialize (Hshort eq_refl). lia. }
    destruct (chooseNextGuess_elem_of (e0 :: rest)) as (e & He & Hnext);
      [done|].
    exists (code_of e), e. unfold callback. rewrite Hnext.
    by cbn [length Nat.ltb Nat.leb].
Qed.

Lemma lose_needs_short_history_witness :
  (callback [] = Lose → @nil string = [] ∧ length first_history ≤ 1)
  ∧ (1 < length first_history
     → ∃ aiGuess e, e ∈ @nil string ∧ aiGuess = code_of e
                    ∧ callback [] = NextGuess aiGuess).
Proof.
  apply (lose_needs_short_history Underscore.sample_first 1
           small_population first_history [] 0 rng_half small_population).
  reflexivity.
Defined.

(** X20. Along the chain of calls that [generation] arms through
    [setTimeout], from a call on a population that satisfies the invariant
    and holds fresh members, every later call finds such a population
    again, a smaller [maxGen], and an eligible set that extends the
    earlier one at its end: no entry is ever removed or reordered. *)
Theorem chain_keeps_population_ready
    (sample : ∀ A : Type, list A → Z → Rand (list A))
    (prevGuesses : list Guess) (c c' : Call) :
  sample_contract sample →
  rtc (arms sample prevGuesses) c c' →
  round_ready (call_this c) →
  round_ready (call_this c')
  ∧ (call_maxGen c' ≤ call_maxGen c)%Z
  ∧ call_eiSet c `prefix_of` call_eiSet c'.
Proof.
  intros Hs. induction 1 as [c|c c1 c' Harm _ IH]; [done|].
  intros Hready. unfold arms in Harm.
  destruct (halts prevGuesses (call_eiSet c) (call_maxGen c)) eqn:Hhalt.
  { unfold generation in Harm. by rewrite Hhalt in Harm. }
  destruct (generation_round_step sample Hs (call_this c) prevGuesses
              (call_eiSet c) (call_maxGen c) (call_rng c) Hready Hhalt)
    as (this' & new & g' & Hgen & Hready' & _).
  rewrite Hgen in Harm. injection Harm as Hthis Hei Hmax _.
  rewrite Hthis in Hready'. destruct (IH Hready') as (? & ? & Hpre).
  split_and!; [done|lia|].
  etrans; [|exact Hpre]. rewrite <-Hei. by apply prefix_app_r.
Qed.

Lemma chain_keeps_population_ready_witness :
  ∃ c',
    arms Underscore.sample_first first_history
      {| call_this := first_population; call_eiSet := [];
         call_maxGen := MAXGEN; call_rng := rng_half |} c'
    ∧ round_ready (call_this c')
    ∧ (call_maxGen c' ≤ MAXGEN)%Z
    ∧ [] `prefix_of` call_eiSet c'.
Proof.
  destruct (generation_round_step Underscore.sample_first
              sample_first_contract first_population first_history []
              MAXGEN rng_half first_population_ready eq_refl)
    as (this' & new & g' & Hgen & _).
  exists {| call_this := this'; call_eiSet := [] ++ new;
            call_maxGen := MAXGEN - 1; call_rng := g' |}.
  split; [exact Hgen|].
  apply (chain_keeps_population_ready Underscore.sample_first first_history
           {| call_this := first_population; call_eiSet := [];
              call_maxGen := MAXGEN; call_rng := rng_half |}).
  - apply sample_first_contract.
  - apply rtc_once. exact Hgen.
  - apply first_population_ready.
Defined.

(** X21. With draws in [[0, 1)] and any [_.sample] within its contract,
    the three trials that [generation] runs on a child (mutation,
    permutation, inversion, each applied or not) turn a code of the code
    space into a code of the code space. *)
Theorem vary_stays_in_code_space
    (sample : ∀ A : Type, list A → Z → Rand (list A))
    (child : Combination) (g : RNG) :
  sample_contract sample → valid_rng g →
  is_code (code child) →
  is_code (code (vary sample child g).1)
  ∧ getCodeString (vary sample child g).1 ∈ allCodes.
Proof.
  intros _ _ Hchild.
  pose proof (wf_vary sample child g Hchild) as Hwf.
  split; [done|].
  apply elem_of_allCodes. unfold getCodeString. by rewrite code_of_join.
Qed.

Lemma vary_stays_in_code_space_witness :
  is_code (code (vary Underscore.sample_first
                   (new_Combination (Str "ABCD")) rng_half).1)
  ∧ getCodeString (vary Underscore.sample_first
                     (new_Combination (Str "ABCD")) rng_half).1
    ∈ allCodes.
Proof.
  apply vary_stays_in_code_space.
  - apply sample_first_contract.
  - apply rng_half_valid.
  - split; [done|]. cbn. unfold SYMBOLS.
    repeat (apply Forall_cons_2; [set_solver|]). apply Forall_nil_2.
Defined.

(** ** The guess selector: further properties *)

Lemma length_without_lt {A} `{EqDecision A} (E : list A) (g : A) :
  g ∈ E → length (filter (λ m, m ≠ g) E) < length E.
Proof.
  induction E as [|a E IH]; intros Hg; [by apply elem_of_nil in Hg|].
  rewrite filter_cons. pose proof (length_filter (λ m, m ≠ g) E).
  destruct (decide (a ≠ g)) as [Hne|_]; cbn [length]; [|lia].
  apply elem_of_cons in Hg as [->|Hg]; [done|]. specialize (IH Hg). lia.
Qed.

Lemma split_sum_short (E : list string) (g : string) :
  length E ≤ 2 → g ∈ E → split_sum E g = 0.
Proof.
  intros Hlen Hg. rewrite split_sum_refines. unfold split_count.
  pose proof (length_without_lt E g Hg) as Hothers.
  destruct (filter (λ m, m ≠ g) E) as [|r [|? ?]];
    [done| |cbn [length] in Hothers; lia].
  rewrite list_fmap_singleton.
  rewrite (filter_cons_False _ r []) by (by intros ?).
  by rewrite !filter_nil.
Qed.

(** X22. [chooseNextGuess] raises on an empty array only ([None] stands
    for the [TypeError] of [undefined.split('')]); on any other array it
    returns the symbols of one of its entries. *)
Theorem chooseNextGuess_returns_an_entry (eligible : list string) :
  (chooseNextGuess eligible = None ↔ eligible = [])
  ∧ ∀ aiGuess, chooseNextGuess eligible = Some aiGuess →
      ∃ e, e ∈ eligible ∧ aiGuess = code_of e.
Proof.
  destruct eligible as [|e0 rest].
  - split; [done|]. by intros aiGuess.
  - destruct (chooseNextGuess_elem_of (e0 :: rest)) as (e & He & Hnext);
      [done|].
    rewrite Hnext. split; [done|].
    intros aiGuess [= <-]. by exists e.
Qed.

(** X23. On an array of one or two codes every split sum is zero, so
    [chooseNextGuess] returns the first entry: with two eligible codes
    left the selector does not weigh them. *)
Theorem chooseNextGuess_two_or_fewer (eligible : list string) :
  length eligible ≤ 2 →
  (∀ g, g ∈ eligible → split_sum eligible g = 0)
  ∧ chooseNextGuess eligible = code_of <$> eligible !! 0.
Proof.
  intros Hlen.
  assert (∀ g, g ∈ eligible → split_sum eligible g = 0) as Hzero.
  { intros g Hg. by apply split_sum_short. }
  split; [done|].
  destruct (chooseNextGuess_loop eligible (eligible !! 0) eligible)
    as (mx & ng & Hfold & _ & Hcase).
  unfold chooseNextGuess. rewrite Hfold.
  destruct Hcase as [[_ ->]|(Hpos & i & e & Hi & _ & Hsum & _)]; [done|].
  apply list_elem_of_lookup_2 in Hi. rewrite (Hzero e Hi) in Hsum. lia.
Qed.

Lemma chooseNextGuess_two_or_fewer_witness :
  (∀ g, g ∈ ["ABCD"; "DCBA"]%string
        → split_sum ["ABCD"; "DCBA"]%string g = 0)
  ∧ chooseNextGuess ["ABCD"; "DCBA"]%string
    = code_of <$> ["ABCD"; "DCBA"]%string !! 0.
Proof.
  apply chooseNextGuess_two_or_fewer. cbn. lia.
Defined.

(** ** The session: the secret *)






(** ** The page *)




